(** * Tic-tac-toe (src/app.js): a shallow embedding and its properties

    The game keeps a list of board snapshots (the history), the index of the
    snapshot on display (stepNumber) and a flag telling whose turn it is
    (xIsNext).  Two handlers change that state: [handleClick] and [jumpTo].
    [calculateWinner] scans a board for a completed line; [Status] and
    [Moves] compute the texts shown next to the board.

    JavaScript arrays are lists; a read past the end yields [JUndefined] and
    a write past the end pads the array with holes, which read as
    [JUndefined].  Array indices and step numbers are natural numbers. *)

From stdpp Require Import list strings pretty.

(** ** Values held by a cell *)

(** A cell holds [null] (the initial fill), a hole / [undefined], or a
    string: the handlers only ever store ['x'] and ['o']. *)
Inductive value : Type :=
  | JNull
  | JUndefined
  | JStr (s : string).

#[global] Instance value_eq_dec : EqDecision value.
Proof. solve_decision. Defined.

(** ToBoolean: [null], [undefined] and the empty string are falsy. *)
Definition truthy (v : value) : bool :=
  match v with
  | JNull | JUndefined => false
  | JStr EmptyString => false
  | JStr (String _ _) => true
  end.

(** [v === w] on these values. *)
Definition strict_eq (v w : value) : bool := bool_decide (v = w).

(** ToString, as used by ['Winner is: ' + winner]. *)
Definition to_string (v : value) : string :=
  match v with
  | JNull => "null"
  | JUndefined => "undefined"
  | JStr s => s
  end.

(** ** Arrays *)

(** [squares[i]]: out of range reads give [undefined]. *)
Definition get (sqs : list value) (i : nat) : value :=
  default JUndefined (sqs !! i).

(** [squares[i] = v]: in range the cell is replaced; past the end the array
    grows to length [i + 1], the new positions before [i] being holes.  A
    write at an index from 2^32 - 1 on is kept the same way, as a cell at
    its position; what the program sees of it is settled by [slice_copy]
    below. *)
Definition set (sqs : list value) (i : nat) (v : value) : list value :=
  if decide (i < length sqs) then <[i:=v]> sqs
  else sqs ++ replicate (i - length sqs) JUndefined ++ [v].

(** ** calculateWinner *)

Definition lines : list (nat * nat * nat) :=
  [ (0, 1, 2);
    (3, 4, 5);
    (6, 7, 8);
    (0, 3, 6);
    (1, 4, 7);
    (2, 5, 8);
    (0, 4, 8);
    (2, 4, 6) ].

(** The test of the loop body on one line. *)
Definition line_test (sqs : list value) (l : nat * nat * nat) : bool :=
  let '(a, b, c) := l in
  truthy (get sqs a) && strict_eq (get sqs a) (get sqs b)
                     && strict_eq (get sqs a) (get sqs c).

(** The [for] loop with its early [return], over the lines still to visit. *)
Fixpoint scan (sqs : list value) (ls : list (nat * nat * nat)) : value :=
  match ls with
  | [] => JNull
  | (a, b, c) :: rest =>
      if line_test sqs (a, b, c) then get sqs a else scan sqs rest
  end.

Definition calculateWinner (sqs : list value) : value := scan sqs lines.

(** ** Game state *)

(** One history entry: [{squares, clickIndex}]; [clickIndex] is [null]
    ([None]) in the first entry and the clicked index afterwards. *)
Record snapshot : Type := Snapshot {
  squares : list value;
  clickIndex : option nat
}.

Record state : Type := State {
  history : list snapshot;
  xIsNext : bool;
  stepNumber : nat
}.

#[global] Instance snapshot_eq_dec : EqDecision snapshot.
Proof. solve_decision. Defined.

#[global] Instance state_eq_dec : EqDecision state.
Proof. solve_decision. Defined.

(** [Array(9).fill(null)] *)
Definition empty_board : list value := replicate 9 JNull.

Definition initial_snapshot : snapshot :=
  {| squares := empty_board; clickIndex := None |}.

(** The constructor's [this.state]. *)
Definition initial_state : state :=
  {| history := [initial_snapshot]; xIsNext := true; stepNumber := 0 |}.

(** A handler either returns, leaving a state behind, or throws: reading
    [.squares] of [undefined] is a TypeError. *)
Inductive outcome (A : Type) : Type :=
  | Returns (a : A)
  | TypeError.
Arguments Returns {A} a.
Arguments TypeError {A}.

(** [this.state.xIsNext ? 'x' : 'o'] *)
Definition mark (xnext : bool) : value :=
  if xnext then JStr "x" else JStr "o".

(** [handleClick(i)].  [history.slice(0, stepNumber + 1)] is [take]; the
    entry read is the one at [history.length - 1], which is [undefined] when
    the slice is empty (index -1; here [0 - 1 = 0] finds nothing either), and
    reading [.squares] of it throws; the early [return] leaves the state as
    it was; [setState] replaces the three fields. *)
Definition handleClick (s : state) (i : nat) : outcome state :=
  let hist := take (stepNumber s + 1) (history s) in
  match hist !! (length hist - 1) with
  | None => TypeError
  | Some current =>
      let sqs := squares current in
      if truthy (get sqs i) || truthy (calculateWinner sqs) then Returns s
      else
        let sqs' := set sqs i (mark (xIsNext s)) in
        Returns {| history := hist ++ [ {| squares := sqs'; clickIndex := Some i |} ];
                   stepNumber := length hist;
                   xIsNext := negb (xIsNext s) |}
  end.

(** [jumpTo(step)]: [setState] with two fields, [history] is kept. *)
Definition jumpTo (s : state) (step : nat) : state :=
  {| history := history s;
     stepNumber := step;
     xIsNext := bool_decide (step mod 2 = 0) |}.

(** ** Status *)

(** What [Status] renders: the class of the inner [div] and its text. *)
Record status_view : Type := StatusView {
  status_class : string;
  status_text : string
}.

Definition Status (sqs : list value) (xnext : bool) : status_view :=
  let winner := calculateWinner sqs in
  let effect := if truthy winner then "bounce" else "" in
  let status :=
    if truthy winner then "Winner is: " +:+ to_string winner
    else "Next player is: " +:+ (if xnext then "x" else "o") in
  {| status_class := "status " +:+ effect; status_text := status |}.

(** ** Moves *)

(** ToNumber of a stored [clickIndex]: [null] counts as 0. *)
Definition to_number (c : option nat) : nat := default 0 c.

(** What [Moves] renders for one entry: the [li]'s key, the button's class,
    the argument its click hands to the [onClick] callback, and its text. *)
Record move_button : Type := MoveButton {
  button_key : nat;
  button_class : string;
  button_onClick : nat;
  button_desc : string
}.

Definition Moves (hist : list snapshot) (stepnum : nat) : list move_button :=
  imap (fun move step =>
    let click := clickIndex step in
    let col := to_number click mod 3 in
    let row := to_number click / 3 in
    let clickPosition := "(row:" +:+ pretty row +:+ ", col:" +:+ pretty col +:+ ")" in
    let desc :=
      match move with
      | 0 => "Go to game start"
      | S _ => "Go to move #" +:+ pretty move +:+ " " +:+ clickPosition
      end in
    let btn_highlight :=
      if bool_decide (stepnum = move) then "btn-primary" else "btn-secondary" in
    {| button_key := move;
       button_class := "btn " +:+ btn_highlight +:+ " btn-block";
       button_onClick := move;
       button_desc := desc |}) hist.

(** ** Runs *)

(** A series of clicks, one after the other; a throw ends the run. *)
Fixpoint clicks (s : state) (ks : list nat) : outcome state :=
  match ks with
  | [] => Returns s
  | i :: rest =>
      match handleClick s i with
      | Returns s' => clicks s' rest
      | TypeError => TypeError
      end
  end.

(** States the game can be in: the initial one, and those left by a click
    that returned or by a jump to one of the listed moves. *)
Inductive reachable : state → Prop :=
  | reachable_initial : reachable initial_state
  | reachable_click s i s' :
      reachable s → handleClick s i = Returns s' → reachable s'
  | reachable_jump s step :
      reachable s → step < length (history s) → reachable (jumpTo s step).

(** How many clicks of a run changed the state. *)
Fixpoint successes (s : state) (ks : list nat) : nat :=
  match ks with
  | [] => 0
  | i :: rest =>
      match handleClick s i with
      | Returns s' => (if decide (s' = s) then 0 else 1) + successes s' rest
      | TypeError => 0
      end
  end.

(** ** Vocabulary of the properties *)

(** The three cells of a line are all non-empty (truthy) and identical. *)
Definition filled (sqs : list value) (l : nat * nat * nat) : Prop :=
  truthy (get sqs l.1.1) = true
  ∧ get sqs l.1.1 = get sqs l.1.2
  ∧ get sqs l.1.1 = get sqs l.2.

(** The number of cells of a board holding [v]. *)
Definition symbol_count (v : value) (sqs : list value) : nat :=
  length (filter (λ c, c = v) sqs).

(** The cells the game ever stores. *)
Definition game_cell (c : value) : Prop :=
  c = JNull ∨ c = JUndefined ∨ c = JStr "x" ∨ c = JStr "o".

(** Entry [n + 1] of a history was made from entry [n] by one move: an empty
    cell [i] received ['x'] when [n] is even and ['o'] when it is odd, and
    [i] was recorded. *)
Definition played (n : nat) (e e' : snapshot) : Prop :=
  ∃ i, truthy (get (squares e) i) = false
       ∧ squares e' = set (squares e) i (mark (Nat.even n))
       ∧ clickIndex e' = Some i.

(** The board reached after [n] moves: game cells only, ['x'] on the odd
    moves and ['o'] on the even ones. *)
Definition board_after (n : nat) (sqs : list value) : Prop :=
  Forall game_cell sqs
  ∧ symbol_count (JStr "x") sqs = (n + 1) / 2
  ∧ symbol_count (JStr "o") sqs = n / 2.

(** What the two handlers keep true. *)
Record invariant (s : state) : Prop := Invariant {
  inv_step : stepNumber s < length (history s);
  inv_turn : xIsNext s = Nat.even (stepNumber s);
  inv_first : history s !! 0 = Some initial_snapshot;
  inv_chain : ∀ n e e',
    history s !! n = Some e → history s !! S n = Some e' → played n e e'
}.

(** The state a click leaves when it places a symbol on the board of [e],
    the entry on display. *)
Definition after_click (s : state) (e : snapshot) (i : nat) : state :=
  {| history := take (stepNumber s + 1) (history s)
                ++ [ {| squares := set (squares e) i (mark (xIsNext s));
                        clickIndex := Some i |} ];
     stepNumber := stepNumber s + 1;
     xIsNext := negb (xIsNext s) |}.

(** ** Concrete games *)

(** The state a run of clicks from the initial state ends in. *)
Definition play (ks : list nat) : state :=
  match clicks initial_state ks with
  | Returns s => s
  | TypeError => initial_state
  end.

(** Four moves: x 0, o 4, x 8, o 2; five history entries. *)
Definition four_moves : state := play [0; 4; 8; 2].

(** x takes the top row on the fifth move. *)
Definition won_game : state := play [0; 3; 1; 4; 2].

(** Nine moves that fill the board without a line. *)
Definition drawn_game : state := play [0; 1; 2; 4; 3; 5; 7; 6; 8].

(** A full board without a completed line. *)
Definition drawn_board : list value :=
  [ JStr "x"; JStr "o"; JStr "x";
    JStr "x"; JStr "o"; JStr "o";
    JStr "o"; JStr "x"; JStr "x" ].

(** ** Square and Board *)

(** What [Square] renders: the class and the content of the button, and
    its click handler, [() => other.onClick()], which calls the callback it
    was given without arguments. *)
Record square_view (A : Type) : Type := SquareView {
  square_class : string;
  square_value : value;
  square_click : unit → A
}.
Arguments SquareView {A} _ _ _.
Arguments square_class {A} _.
Arguments square_value {A} _.
Arguments square_click {A} _ _.

Definition Square {A : Type} (v : value) (onClick : unit → A) : square_view A :=
  {| square_class := "square " +:+ to_string v;
     square_value := v;
     square_click := λ _, onClick () |}.

(** [cells.slice(a, b)] for indices that are natural numbers. *)
Definition slice {A : Type} (a b : nat) (l : list A) : list A :=
  drop a (take b l).

(** One [div] of the board: its key and its squares, each with its key. *)
Record board_row (A : Type) : Type := BoardRow {
  row_key : string;
  row_squares : list (string * square_view A)
}.
Arguments BoardRow {A} _ _.
Arguments row_key {A} _.
Arguments row_squares {A} _.

(** [ArrRows.map(...)] with the counter that [counter++] advances once per
    row: the slice of a row ends at three times the value the counter had
    before the increment. *)
Fixpoint Board_rows {A : Type} (cells : list nat) (sqs : list value)
    (onClick : nat → A) (rows : list nat) (counter : nat) : list (board_row A) :=
  match rows with
  | [] => []
  | row :: rest =>
      {| row_key := pretty row;
         row_squares :=
           (λ cellID, (pretty cellID,
                       Square (get sqs cellID) (λ _, onClick cellID)))
           <$> slice (row * 3) (counter * 3) cells |}
      :: Board_rows cells sqs onClick rest (counter + 1)
  end.

Definition Board {A : Type} (cells : list nat) (sqs : list value)
    (onClick : nat → A) : list (board_row A) :=
  Board_rows cells sqs onClick [0; 1; 2] 1.

(** ** Game.render *)

(** The three parts of the page; the handlers bound to the squares are those
    of the state rendered, and a move button calls [jumpTo] with the number
    it stores. *)
Record game_view : Type := GameView {
  view_board : list (board_row (outcome state));
  view_status : status_view;
  view_moves : list move_button
}.

(** [render()]: [history[stepNumber]] is [undefined] past the end of the
    history, and reading its [.squares] throws. *)
Definition render (s : state) : outcome game_view :=
  match history s !! stepNumber s with
  | None => TypeError
  | Some current =>
      let sqs := squares current in
      Returns {| view_board := Board [0; 1; 2; 3; 4; 5; 6; 7; 8] sqs (handleClick s);
                 view_status := Status sqs (xIsNext s);
                 view_moves := Moves (history s) (stepNumber s) |}
  end.

(** ** Events on the page *)

(** A click on the square at a row and a column of the page, or on a button
    of the move list. *)
Inductive event : Type :=
  | click_square (row col : nat)
  | click_move (n : nat).

(** An event runs the handler of the element it hits in the page rendered
    from the state; where there is no such element nothing runs. *)
Definition fire (s : state) (ev : event) : outcome state :=
  match render s with
  | TypeError => TypeError
  | Returns v =>
      match ev with
      | click_square r c =>
          match view_board v !! r with
          | None => Returns s
          | Some rw =>
              match row_squares rw !! c with
              | None => Returns s
              | Some (_, sq) => square_click sq ()
              end
          end
      | click_move n =>
          match view_moves v !! n with
          | None => Returns s
          | Some b => Returns (jumpTo s (button_onClick b))
          end
      end
  end.

Fixpoint fire_all (s : state) (evs : list event) : outcome state :=
  match evs with
  | [] => Returns s
  | ev :: rest =>
      match fire s ev with
      | Returns s' => fire_all s' rest
      | TypeError => TypeError
      end
  end.

(** States reached with the indices the board hands out, 0 to 8, and with
    jumps to listed moves. *)
Inductive playable : state → Prop :=
  | playable_initial : playable initial_state
  | playable_click s i s' :
      playable s → i < 9 → handleClick s i = Returns s' → playable s'
  | playable_jump s step :
      playable s → step < length (history s) → playable (jumpTo s step).

(** No entry that has a successor in the history holds a winner. *)
Definition open_before_last (s : state) : Prop :=
  ∀ n e e', history s !! n = Some e → history s !! S n = Some e' →
            calculateWinner (squares e) = JNull.

(** Every stored board has nine cells. *)
Definition nine_cells (s : state) : Prop :=
  ∀ n e, history s !! n = Some e → length (squares e) = 9.

(** ** The copy that handleClick makes *)

(** An array has at most 2^32 - 1 elements, so an index is an array index
    when it is below this number.  A write at a larger index does not make
    an element: it makes a property of the array object and leaves the
    length alone.  In the lists of this file such a property is the cell at
    its position, the positions between the elements and it reading
    [undefined], as they do in the program. *)
Definition max_array_length : nat := 2 ^ 32 - 1.

(** [current.squares.slice()]: a new array with the elements of the old
    one and nothing else; what the old one holds at positions that are not
    array indices is not copied. *)
Definition slice_copy (sqs : list value) : list value :=
  take max_array_length sqs.

(** The handlers with that copy written out.  On boards that fit into an
    array the copy is the board itself and [Exact.handleClick] is
    [handleClick]. *)
Module Exact.

Definition handleClick (s : state) (i : nat) : outcome state :=
  let hist := take (stepNumber s + 1) (history s) in
  match hist !! (length hist - 1) with
  | None => TypeError
  | Some current =>
      let sqs := slice_copy (squares current) in
      if truthy (get sqs i) || truthy (calculateWinner sqs) then Returns s
      else
        let sqs' := set sqs i (mark (xIsNext s)) in
        Returns {| history := hist ++ [ {| squares := sqs'; clickIndex := Some i |} ];
                   stepNumber := length hist;
                   xIsNext := negb (xIsNext s) |}
  end.

Fixpoint clicks (s : state) (ks : list nat) : outcome state :=
  match ks with
  | [] => Returns s
  | i :: rest =>
      match handleClick s i with
      | Returns s' => clicks s' rest
      | TypeError => TypeError
      end
  end.

(** How many clicks of a run changed the state. *)
Fixpoint successes (s : state) (ks : list nat) : nat :=
  match ks with
  | [] => 0
  | i :: rest =>
      match handleClick s i with
      | Returns s' => (if decide (s' = s) then 0 else 1) + successes s' rest
      | TypeError => 0
      end
  end.

(** States reached by clicks at array indices and by jumps to a step inside
    the history. *)
Inductive indexed : state → Prop :=
  | indexed_initial : indexed initial_state
  | indexed_click s i s' :
      indexed s → i < max_array_length → handleClick s i = Returns s' →
      indexed s'
  | indexed_jump s step :
      indexed s → step < length (history s) → indexed (jumpTo s step).

End Exact.

(** Every stored board fits into an array. *)
Definition short_boards (s : state) : Prop :=
  ∀ n e, history s !! n = Some e → length (squares e) ≤ max_array_length.

(** ** Sanity checks on concrete inputs *)

Example click_0 :
  handleClick initial_state 0 =
  Returns {| history := [initial_snapshot;
                         {| squares := JStr "x" :: replicate 8 JNull;
                            clickIndex := Some 0 |}];
             xIsNext := false; stepNumber := 1 |}.
Proof. reflexivity. Qed.

Example scenario_0_4_0 :
  ∃ s, clicks initial_state [0; 4] = Returns s
       ∧ length (history s) = 3 ∧ xIsNext s = true
       ∧ clicks initial_state [0; 4; 0] = Returns s.
Proof. eexists. repeat split; reflexivity. Qed.

(** ** Reading and writing arrays *)

Section arrays.
Implicit Types (sqs : list value) (v : value) (i j : nat).

Lemma get_lookup sqs i v : sqs !! i = Some v → get sqs i = v.
Proof. unfold get. by intros ->. Qed.

Lemma get_out_of_range sqs i : length sqs ≤ i → get sqs i = JUndefined.
Proof. intros H. unfold get. by rewrite lookup_ge_None_2. Qed.

Lemma truthy_get_lookup sqs i :
  truthy (get sqs i) = true → sqs !! i = Some (get sqs i).
Proof.
  unfold get. destruct (sqs !! i) as [v|]; [done|]. simpl. discriminate.
Qed.

Lemma truthy_not_null v : truthy v = true → v ≠ JNull.
Proof. by destruct v. Qed.

Lemma truthy_is_string v :
  truthy v = true → ∃ s, v = JStr s ∧ s ≠ EmptyString.
Proof. destruct v as [| |[|a s]]; try done. intros _. by eexists. Qed.

Lemma length_set sqs i v : length (set sqs i v) = length sqs `max` (i + 1).
Proof.
  unfold set. case_decide.
  - rewrite length_insert. lia.
  - rewrite !length_app, length_replicate. simpl. lia.
Qed.

Lemma get_set_eq sqs i v : get (set sqs i v) i = v.
Proof.
  unfold get, set. case_decide.
  - by rewrite list_lookup_insert_eq.
  - rewrite lookup_app_r by lia.
    rewrite lookup_app_r by (rewrite length_replicate; lia).
    rewrite length_replicate.
    by replace (i - length sqs - (i - length sqs)) with 0 by lia.
Qed.

Lemma get_set_ne sqs i j v : i ≠ j → get (set sqs i v) j = get sqs j.
Proof.
  intros Hne. unfold get, set. case_decide.
  - by rewrite list_lookup_insert_ne.
  - destruct (decide (j < length sqs)) as [Hj|Hj].
    + by rewrite lookup_app_l.
    + rewrite lookup_app_r by lia.
      rewrite (lookup_ge_None_2 sqs j) by lia.
      destruct (decide (j < i)) as [Hji|Hji].
      * rewrite lookup_app_l by (rewrite length_replicate; lia).
        rewrite lookup_replicate_2 by lia. done.
      * rewrite lookup_ge_None_2; [done|].
        rewrite length_app, length_replicate. simpl. lia.
Qed.
End arrays.

(** ** The scan of the lines *)

Lemma line_test_filled sqs l : line_test sqs l = true ↔ filled sqs l.
Proof.
  destruct l as [[a b] c]. unfold line_test, filled, strict_eq. simpl.
  rewrite !andb_true_iff, !bool_decide_eq_true. tauto.
Qed.

Lemma line_test_not_filled sqs l : line_test sqs l = false ↔ ¬ filled sqs l.
Proof.
  rewrite <- line_test_filled. destruct (line_test sqs l); split; done.
Qed.

(** The loop returns the first cell of the first line that passes the test. *)
Lemma scan_find sqs ls :
  scan sqs ls =
  match List.find (line_test sqs) ls with
  | Some l => get sqs l.1.1
  | None => JNull
  end.
Proof.
  induction ls as [|[[a b] c] rest IH]; [done|].
  cbn [scan List.find]. by destruct (line_test sqs (a, b, c)).
Qed.

Lemma scan_none sqs ls :
  (∀ l, l ∈ ls → ¬ filled sqs l) → scan sqs ls = JNull.
Proof.
  induction ls as [|[[a b] c] rest IH]; intros H; [done|].
  cbn [scan]. rewrite (proj2 (line_test_not_filled _ _)).
  - apply IH. intros l Hl. apply H. by right.
  - apply H. by left.
Qed.

Lemma scan_null sqs ls :
  scan sqs ls = JNull → ∀ l, l ∈ ls → ¬ filled sqs l.
Proof.
  induction ls as [|[[a b] c] rest IH]; intros Hnull l Hl; [by apply elem_of_nil in Hl|].
  cbn [scan] in Hnull. destruct (line_test sqs (a, b, c)) eqn:Ht.
  - apply line_test_filled in Ht as [Ht _]. simpl in Ht. by rewrite Hnull in Ht.
  - apply elem_of_cons in Hl as [->|Hl]; [by apply line_test_not_filled|by apply IH].
Qed.

Lemma scan_first sqs ls k l :
  ls !! k = Some l → filled sqs l →
  (∀ j l', j < k → ls !! j = Some l' → ¬ filled sqs l') →
  scan sqs ls = get sqs l.1.1.
Proof.
  revert k. induction ls as [|[[a b] c] rest IH]; intros k Hk Hl Hbefore; [done|].
  cbn [scan]. destruct k as [|k]; simpl in Hk.
  - injection Hk as <-. by rewrite (proj2 (line_test_filled _ _)).
  - rewrite (proj2 (line_test_not_filled _ _)).
    + apply (IH k); [done..|]. intros j l' Hj Hl'. apply (Hbefore (S j)); [lia|done].
    + apply (Hbefore 0); [lia|done].
Qed.

(** What comes out of the loop is [null] or the truthy content of a line
    that passed the test. *)
Lemma scan_result sqs ls :
  scan sqs ls = JNull
  ∨ ∃ l, l ∈ ls ∧ filled sqs l ∧ scan sqs ls = get sqs l.1.1.
Proof.
  induction ls as [|[[a b] c] rest IH]; [by left|].
  cbn [scan]. destruct (line_test sqs (a, b, c)) eqn:Ht.
  - right. exists (a, b, c). split; [by left|]. split; [|done].
    by apply line_test_filled.
  - destruct IH as [IH|(l & Hl & Hf & IH)]; [by left|].
    right. exists l. split; [by right|done].
Qed.

Lemma calculateWinner_result sqs :
  calculateWinner sqs = JNull
  ∨ ∃ l, l ∈ lines ∧ filled sqs l ∧ calculateWinner sqs = get sqs l.1.1.
Proof. apply scan_result. Qed.

Lemma calculateWinner_truthy_iff sqs :
  truthy (calculateWinner sqs) = true ↔ calculateWinner sqs ≠ JNull.
Proof.
  split; [apply truthy_not_null|].
  destruct (calculateWinner_result sqs) as [->|(l & _ & (Ht & _) & ->)]; done.
Qed.

Lemma calculateWinner_falsy_iff sqs :
  truthy (calculateWinner sqs) = false ↔ calculateWinner sqs = JNull.
Proof.
  split; [|by intros ->].
  destruct (calculateWinner_result sqs) as [->|(l & _ & (Ht & _) & ->)]; [done|].
  by rewrite Ht.
Qed.

(** ** One click *)

Section click.
Implicit Types (s : state) (e : snapshot) (i : nat).

(** With the step number inside the history, the entry read is the one on
    display and the click does not throw. *)
Lemma handleClick_unfold s e i :
  history s !! stepNumber s = Some e →
  handleClick s i =
  Returns (if truthy (get (squares e) i) || truthy (calculateWinner (squares e))
           then s else after_click s e i).
Proof.
  intros He. pose proof (lookup_lt_Some _ _ _ He) as Hlt.
  unfold handleClick, after_click.
  rewrite length_take_le by lia.
  replace (stepNumber s + 1 - 1) with (stepNumber s) by lia.
  rewrite lookup_take_lt by lia. rewrite He. cbn zeta.
  by destruct (truthy (get (squares e) i) || truthy (calculateWinner (squares e))).
Qed.

Lemma handleClick_ignored s e i :
  history s !! stepNumber s = Some e →
  truthy (get (squares e) i) = true ∨ calculateWinner (squares e) ≠ JNull →
  handleClick s i = Returns s.
Proof.
  intros He Hguard. rewrite (handleClick_unfold s e i He).
  destruct Hguard as [->|Hw]; [done|].
  apply calculateWinner_truthy_iff in Hw. rewrite Hw.
  by rewrite orb_true_r.
Qed.

Lemma handleClick_placed s e i :
  history s !! stepNumber s = Some e →
  truthy (get (squares e) i) = false →
  calculateWinner (squares e) = JNull →
  handleClick s i = Returns (after_click s e i).
Proof.
  intros He Hempty Hw. rewrite (handleClick_unfold s e i He).
  by rewrite Hempty, Hw.
Qed.

Lemma length_after_click s e i :
  stepNumber s < length (history s) →
  length (history (after_click s e i)) = stepNumber s + 2.
Proof.
  intros Hlt. simpl. rewrite length_app, length_take_le by lia. simpl. lia.
Qed.

Lemma after_click_ne s e i : after_click s e i ≠ s.
Proof. intros H. apply (f_equal stepNumber) in H. simpl in H. lia. Qed.

(** A click on a state whose step number is inside the history returns [s]
    itself or the state with one more move. *)
Lemma handleClick_cases s i s' :
  stepNumber s < length (history s) →
  handleClick s i = Returns s' →
  s' = s ∨ ∃ e, history s !! stepNumber s = Some e
              ∧ truthy (get (squares e) i) = false
              ∧ calculateWinner (squares e) = JNull
              ∧ s' = after_click s e i.
Proof.
  intros Hlt Hc. destruct (lookup_lt_is_Some_2 _ _ Hlt) as [e He].
  rewrite (handleClick_unfold s e i He) in Hc. injection Hc as <-.
  destruct (truthy (get (squares e) i)) eqn:Hcell; [by left|].
  destruct (truthy (calculateWinner (squares e))) eqn:Hw; [by left|].
  right. exists e. by rewrite <- calculateWinner_falsy_iff.
Qed.
End click.

(** ** Parity *)

Lemma jump_parity (step : nat) : bool_decide (step mod 2 = 0) = Nat.even step.
Proof.
  destruct (Nat.even step) eqn:He.
  - apply bool_decide_eq_true. apply Nat.even_spec in He as [k ->].
    rewrite Nat.mul_comm. by rewrite Nat.Div0.mod_mul.
  - apply bool_decide_eq_false. intros Hm.
    assert (Nat.even step = true); [|congruence].
    apply Nat.even_spec. exists (step / 2).
    rewrite (Nat.div_mod_eq step 2) at 1. lia.
Qed.

Lemma half_double (k : nat) : 2 * k / 2 = k.
Proof. rewrite Nat.mul_comm. by apply Nat.div_mul. Qed.

Lemma half_double_succ (k : nat) : (2 * k + 1) / 2 = k.
Proof.
  replace (2 * k + 1) with (1 + k * 2) by lia.
  by rewrite Nat.div_add.
Qed.

Lemma even_succ_negb (n : nat) : Nat.even (n + 1) = negb (Nat.even n).
Proof. rewrite Nat.add_1_r. by rewrite Nat.even_succ, <- Nat.negb_even. Qed.

(** ** The invariant of the two handlers *)

Lemma invariant_initial : invariant initial_state.
Proof.
  split; simpl; [lia|done|done|].
  intros n e e' _ He'. by destruct n.
Qed.

Lemma invariant_jumpTo s step :
  invariant s → step < length (history s) → invariant (jumpTo s step).
Proof.
  intros [Hstep Hturn Hfirst Hchain] Hlt.
  split; simpl; [done|apply jump_parity|done|done].
Qed.

Lemma invariant_after_click s e i :
  invariant s →
  history s !! stepNumber s = Some e →
  truthy (get (squares e) i) = false →
  invariant (after_click s e i).
Proof.
  intros [Hstep Hturn Hfirst Hchain] He Hempty.
  assert (Hlen : length (take (stepNumber s + 1) (history s)) = stepNumber s + 1)
    by (rewrite length_take_le; lia).
  split.
  - rewrite length_after_click by done. simpl. lia.
  - simpl. by rewrite even_succ_negb, Hturn.
  - simpl. rewrite lookup_app_l by lia. by rewrite lookup_take_lt by lia.
  - intros n e1 e2. simpl. intros H1 H2.
    destruct (decide (S n < stepNumber s + 1)) as [Hn|Hn].
    + rewrite lookup_app_l, lookup_take_lt in H1 by lia.
      rewrite lookup_app_l, lookup_take_lt in H2 by lia.
      by apply Hchain.
    + pose proof (lookup_lt_Some _ _ _ H2) as Hn2.
      rewrite length_app, Hlen in Hn2. simpl in Hn2.
      assert (n = stepNumber s) as -> by lia.
      rewrite lookup_app_l, lookup_take_lt in H1 by lia.
      rewrite lookup_app_r in H2 by lia.
      rewrite Hlen in H2. replace (S (stepNumber s) - (stepNumber s + 1)) with 0 in H2 by lia.
      simpl in H2. injection H2 as <-.
      assert (e1 = e) as -> by congruence.
      exists i. simpl. by rewrite Hturn.
Qed.

Lemma invariant_handleClick s i s' :
  invariant s → handleClick s i = Returns s' → invariant s'.
Proof.
  intros Hinv Hc.
  destruct (handleClick_cases s i s' (inv_step s Hinv) Hc)
    as [->|(e & He & Hempty & _ & ->)]; [done|].
  by apply invariant_after_click.
Qed.

Lemma reachable_invariant s : reachable s → invariant s.
Proof.
  induction 1 as [|s i s' _ IH Hc|s step _ IH Hlt].
  - apply invariant_initial.
  - by apply (invariant_handleClick s i).
  - by apply invariant_jumpTo.
Qed.

(** No click throws on a state of the game. *)
Lemma invariant_handleClick_returns s i :
  invariant s → ∃ s', handleClick s i = Returns s'.
Proof.
  intros Hinv. destruct (lookup_lt_is_Some_2 _ _ (inv_step s Hinv)) as [e He].
  rewrite (handleClick_unfold s e i He). by eexists.
Qed.

Lemma clicks_reachable ks : ∀ s s',
  reachable s → clicks s ks = Returns s' → reachable s'.
Proof.
  induction ks as [|i rest IH]; intros s s' Hreach Hrun.
  - by injection Hrun as <-.
  - cbn [clicks] in Hrun. destruct (handleClick s i) as [s1|] eqn:Hc; [|done].
    apply (IH s1); [|done]. by apply (reachable_click s i).
Qed.

Lemma play_reachable ks : reachable (play ks).
Proof.
  unfold play. destruct (clicks initial_state ks) as [s|] eqn:Hrun.
  - apply (clicks_reachable ks initial_state); [constructor|done].
  - constructor.
Qed.

(** ** Counting symbols *)

Section counting.
Implicit Types (sqs : list value) (v w : value) (i : nat).

Lemma symbol_count_app v sqs1 sqs2 :
  symbol_count v (sqs1 ++ sqs2) = symbol_count v sqs1 + symbol_count v sqs2.
Proof. unfold symbol_count. by rewrite filter_app, length_app. Qed.

Lemma symbol_count_cons v w sqs :
  symbol_count v (w :: sqs) = (if decide (w = v) then 1 else 0) + symbol_count v sqs.
Proof.
  unfold symbol_count. rewrite filter_cons. by case_decide.
Qed.

Lemma symbol_count_replicate v w n :
  w ≠ v → symbol_count v (replicate n w) = 0.
Proof.
  intros Hne. induction n as [|n IH]; [done|].
  simpl. rewrite symbol_count_cons, IH. by rewrite decide_False.
Qed.

(** Writing [w] into a cell that held something else adds one [w]. *)
Lemma symbol_count_set_same sqs i w :
  get sqs i ≠ w → w ≠ JUndefined →
  symbol_count w (set sqs i w) = S (symbol_count w sqs).
Proof.
  intros Hcell Hw. unfold set. case_decide as Hi.
  - destruct (lookup_lt_is_Some_2 _ _ Hi) as [c Hc].
    rewrite (get_lookup _ _ _ Hc) in Hcell.
    rewrite insert_take_drop by done.
    rewrite <- (take_drop_middle sqs i c Hc) at 3.
    rewrite !symbol_count_app, !symbol_count_cons.
    rewrite decide_True by done. rewrite (decide_False (P := c = w)) by done. lia.
  - rewrite !symbol_count_app, symbol_count_replicate by done.
    rewrite symbol_count_cons, decide_True by done. unfold symbol_count. simpl. lia.
Qed.

(** Writing [w] into a cell that did not hold [v] leaves the [v]s alone. *)
Lemma symbol_count_set_other sqs i v w :
  get sqs i ≠ v → w ≠ v → v ≠ JUndefined →
  symbol_count v (set sqs i w) = symbol_count v sqs.
Proof.
  intros Hcell Hw Hv. unfold set. case_decide as Hi.
  - destruct (lookup_lt_is_Some_2 _ _ Hi) as [c Hc].
    rewrite (get_lookup _ _ _ Hc) in Hcell.
    rewrite insert_take_drop by done.
    rewrite <- (take_drop_middle sqs i c Hc) at 3.
    rewrite !symbol_count_app, !symbol_count_cons.
    by rewrite !decide_False by done.
  - rewrite !symbol_count_app, symbol_count_replicate by done.
    rewrite symbol_count_cons, decide_False by done. unfold symbol_count. simpl. lia.
Qed.

Lemma symbol_count_get sqs i v :
  get sqs i = v → v ≠ JUndefined → 1 ≤ symbol_count v sqs.
Proof.
  intros Hg Hv. unfold get in Hg.
  destruct (sqs !! i) as [c|] eqn:Hc; simpl in Hg; [subst c|congruence].
  rewrite <- (take_drop_middle sqs i v Hc).
  rewrite symbol_count_app, symbol_count_cons, decide_True by done. lia.
Qed.

Lemma get_take sqs n i : i < n → get (take n sqs) i = get sqs i.
Proof. intros H. unfold get. by rewrite lookup_take_lt. Qed.

Lemma get_drop sqs n i : get (drop n sqs) i = get sqs (n + i).
Proof. unfold get. by rewrite lookup_drop. Qed.

(** Three different cells holding [v] make at least three [v]s. *)
Lemma symbol_count_three sqs a b c v :
  a < b → b < c → v ≠ JUndefined →
  get sqs a = v → get sqs b = v → get sqs c = v →
  3 ≤ symbol_count v sqs.
Proof.
  intros Hab Hbc Hv Ha Hb Hc.
  rewrite <- (take_drop b sqs), symbol_count_app.
  rewrite <- (take_drop (c - b) (drop b sqs)), symbol_count_app.
  assert (1 ≤ symbol_count v (take b sqs)).
  { apply (symbol_count_get _ a); [|done]. by rewrite get_take. }
  assert (1 ≤ symbol_count v (take (c - b) (drop b sqs))).
  { apply (symbol_count_get _ 0); [|done].
    rewrite get_take, get_drop by lia. by rewrite Nat.add_0_r. }
  assert (1 ≤ symbol_count v (drop (c - b) (drop b sqs))).
  { apply (symbol_count_get _ 0); [|done].
    rewrite !get_drop. by replace (b + (c - b + 0)) with c by lia. }
  lia.
Qed.

Lemma lines_increasing l : l ∈ lines → l.1.1 < l.1.2 ∧ l.1.2 < l.2.
Proof.
  unfold lines. rewrite !elem_of_cons, elem_of_nil.
  intros H. repeat (destruct H as [->|H]; [simpl; lia|]). done.
Qed.

(** A winner needs three cells. *)
Lemma winner_count sqs :
  calculateWinner sqs ≠ JNull → 3 ≤ symbol_count (calculateWinner sqs) sqs.
Proof.
  intros Hw.
  destruct (calculateWinner_result sqs) as [?|(l & Hl & (Ht & Hb & Hc) & Heq)]; [done|].
  destruct (lines_increasing l Hl) as [Hab Hbc].
  rewrite Heq. apply (symbol_count_three sqs l.1.1 l.1.2 l.2); try done.
  intros Hu. by rewrite Hu in Ht.
Qed.

Lemma winner_in_board sqs :
  calculateWinner sqs ≠ JNull → calculateWinner sqs ∈ sqs.
Proof.
  intros Hw.
  destruct (calculateWinner_result sqs) as [?|(l & _ & (Ht & _) & Heq)]; [done|].
  rewrite Heq. apply list_elem_of_lookup. exists l.1.1.
  by apply truthy_get_lookup.
Qed.
End counting.

(** ** Boards of the game *)

Lemma game_cell_mark b : game_cell (mark b).
Proof. destruct b; unfold game_cell; simpl; auto. Qed.

Lemma mark_truthy b : truthy (mark b) = true.
Proof. by destruct b. Qed.

Lemma Forall_game_cell_set sqs i b :
  Forall game_cell sqs → Forall game_cell (set sqs i (mark b)).
Proof.
  intros H. unfold set. case_decide.
  - apply Forall_insert; [done|apply game_cell_mark].
  - rewrite !Forall_app. split; [done|]. split.
    + apply Forall_replicate. unfold game_cell. auto.
    + apply Forall_cons. split; [apply game_cell_mark|done].
Qed.

Lemma board_after_initial : board_after 0 empty_board.
Proof.
  split; [|done].
  apply Forall_replicate. unfold game_cell. auto.
Qed.

Lemma board_after_played n e e' :
  board_after n (squares e) → played n e e' → board_after (S n) (squares e').
Proof.
  intros (Hcells & Hx & Ho) (i & Hempty & -> & _).
  assert (Hnx : get (squares e) i ≠ JStr "x") by (intros H; by rewrite H in Hempty).
  assert (Hno : get (squares e) i ≠ JStr "o") by (intros H; by rewrite H in Hempty).
  split; [by apply Forall_game_cell_set|].
  destruct (Nat.even n) eqn:Hev; cbn [mark].
  - apply Nat.even_spec in Hev as [k ->].
    rewrite symbol_count_set_same, symbol_count_set_other by done.
    rewrite Hx, Ho.
    replace (S (2 * k) + 1) with (2 * (k + 1)) by lia.
    replace (S (2 * k)) with (2 * k + 1) by lia.
    rewrite !half_double, !half_double_succ. lia.
  - assert (Nat.odd n = true) as Hodd by (by rewrite <- Nat.negb_even, Hev).
    apply Nat.odd_spec in Hodd as [k ->].
    rewrite symbol_count_set_same, symbol_count_set_other by done.
    rewrite Hx, Ho.
    replace (S (2 * k + 1) + 1) with (2 * (k + 1) + 1) by lia.
    replace (S (2 * k + 1)) with (2 * (k + 1)) by lia.
    replace (2 * k + 1 + 1) with (2 * (k + 1)) by lia.
    rewrite !half_double, !half_double_succ. lia.
Qed.

(** Under the invariant the entry at position [n] is a board after [n]
    moves. *)
Lemma invariant_board_after s n e :
  invariant s → history s !! n = Some e → board_after n (squares e).
Proof.
  intros Hinv. revert e. induction n as [|n IH]; intros e He.
  - rewrite (inv_first s Hinv) in He. injection He as <-. apply board_after_initial.
  - assert (is_Some (history s !! n)) as [e0 He0].
    { apply lookup_lt_is_Some_2. apply lookup_lt_Some in He. lia. }
    apply (board_after_played n e0); [by apply IH|].
    by apply (inv_chain s Hinv).
Qed.

(** Nobody has won before the fifth move. *)
Lemma board_after_no_winner n sqs :
  board_after n sqs → n < 5 → calculateWinner sqs = JNull.
Proof.
  intros (Hcells & Hx & Ho) Hn.
  destruct (decide (calculateWinner sqs = JNull)) as [|Hw]; [done|].
  exfalso. pose proof (winner_count sqs Hw) as Hcount.
  pose proof (winner_in_board sqs Hw) as Hin.
  rewrite Forall_forall in Hcells. specialize (Hcells _ Hin).
  apply calculateWinner_truthy_iff in Hw.
  assert ((n + 1) / 2 < 3) by (apply Nat.Div0.div_lt_upper_bound; lia).
  assert (n / 2 < 3) by (apply Nat.Div0.div_lt_upper_bound; lia).
  destruct Hcells as [Hc|[Hc|[Hc|Hc]]]; rewrite Hc in *; try done; lia.
Qed.

(** ** calculateWinner *)

(** C3: on every board (of nine cells or not) calculateWinner goes through
    the eight lines in the order rows, columns, diagonals; it returns the
    content of the first cell of the first line whose three cells are all
    non-empty and identical, which is a non-empty value; when no line is
    so filled it returns null, and only then; the empty board gives null. *)
Theorem calculateWinner_first_filled_line (sqs : list value) :
  lines = [ (0, 1, 2); (3, 4, 5); (6, 7, 8);
            (0, 3, 6); (1, 4, 7); (2, 5, 8);
            (0, 4, 8); (2, 4, 6) ]
  ∧ (∀ k l, lines !! k = Some l → filled sqs l →
       (∀ j l', j < k → lines !! j = Some l' → ¬ filled sqs l') →
       calculateWinner sqs = get sqs l.1.1
       ∧ truthy (calculateWinner sqs) = true)
  ∧ ((∀ l, l ∈ lines → ¬ filled sqs l) ↔ calculateWinner sqs = JNull)
  ∧ (∀ l v, l ∈ lines → filled sqs l → get sqs l.1.1 = v →
       (∀ l', l' ∈ lines → filled sqs l' → get sqs l'.1.1 = v) →
       calculateWinner sqs = v)
  ∧ calculateWinner empty_board = JNull.
Proof.
  split; [done|]. split; [|split; [split|split; [|done]]].
  - intros k l Hk Hl Hbefore.
    assert (calculateWinner sqs = get sqs l.1.1) as Heq
      by (by apply (scan_first sqs lines k l)).
    split; [done|]. rewrite Heq. by destruct Hl.
  - apply scan_none.
  - apply scan_null.
  - intros l v Hl Hf Hv Hsame.
    destruct (calculateWinner_result sqs) as [Hnull|(l' & Hl' & Hf' & ->)].
    + by destruct (scan_null sqs lines Hnull l Hl).
    + by apply Hsame.
Qed.

(** Each of the eight lines, filled with either symbol on an otherwise empty
    board, is found. *)
Lemma every_line_wins l b :
  l ∈ lines →
  calculateWinner (set (set (set empty_board l.1.1 (mark b)) l.1.2 (mark b)) l.2 (mark b))
  = mark b.
Proof.
  unfold lines. rewrite !elem_of_cons, elem_of_nil.
  intros H. repeat (destruct H as [->|H]; [by destruct b|]). done.
Qed.

(** A scattered board, nobody has a line. *)
Example scattered_board :
  calculateWinner [ JStr "x"; JNull; JStr "o";
                    JNull; JStr "o"; JStr "x";
                    JStr "x"; JNull; JNull ] = JNull.
Proof. reflexivity. Qed.

(** Lines are found in the order of the list: with the top row of o and the
    left column of x both filled, the row comes first. *)
Example row_before_column :
  calculateWinner [ JStr "o"; JStr "o"; JStr "o";
                    JStr "x"; JNull; JNull;
                    JStr "x"; JNull; JNull ] = JStr "o"
  ∧ calculateWinner [ JStr "x"; JStr "o"; JStr "o";
                      JStr "x"; JStr "o"; JNull;
                      JStr "x"; JNull; JStr "o" ] = JStr "x".
Proof. split; reflexivity. Qed.

(** Arrays shorter than a board. *)
Example short_arrays :
  calculateWinner [JStr "x"; JStr "x"; JStr "x"] = JStr "x"
  ∧ calculateWinner [JStr "x"; JStr "x"] = JNull
  ∧ calculateWinner [JNull; JNull; JNull; JStr "o"; JStr "o"; JStr "o"] = JStr "o".
Proof. repeat split; reflexivity. Qed.

Lemma lines_third_cell l : l ∈ lines → 2 ≤ l.2.
Proof.
  unfold lines. rewrite !elem_of_cons, elem_of_nil.
  intros H. repeat (destruct H as [->|H]; [simpl; lia|]). done.
Qed.

(** C10: calculateWinner is defined on arrays of every length.  A position
    past the end reads as undefined, which counts as an empty cell; the
    result is null or a non-empty value stored in the array; the empty
    array, and every array of fewer than three cells, gives null. *)
Theorem calculateWinner_any_length (sqs : list value) :
  (∀ i, length sqs ≤ i → get sqs i = JUndefined ∧ truthy (get sqs i) = false)
  ∧ (calculateWinner sqs = JNull
     ∨ (calculateWinner sqs ∈ sqs ∧ truthy (calculateWinner sqs) = true))
  ∧ calculateWinner [] = JNull
  ∧ (length sqs < 3 → calculateWinner sqs = JNull).
Proof.
  split; [|split; [|split; [done|]]].
  - intros i Hi. by rewrite get_out_of_range.
  - destruct (decide (calculateWinner sqs = JNull)) as [|Hw]; [by left|right].
    split; [by apply winner_in_board|by apply calculateWinner_truthy_iff].
  - intros Hlen. apply scan_none. intros l Hl (Ht & _ & Hc).
    pose proof (lines_third_cell l Hl).
    rewrite Hc, get_out_of_range in Ht by lia. done.
Qed.

(** ** Status *)

(** C7: Status shows the winner text, naming the string calculateWinner
    returned, and the bounce class exactly when calculateWinner returns a
    winner; otherwise it shows the next-player text, x when the flag is set
    and o when it is not, without the bounce class; a full board without a
    winner also gets the next-player text. *)
Theorem Status_winner_or_next (sqs : list value) (xnext : bool) :
  (calculateWinner sqs ≠ JNull →
     ∃ w, calculateWinner sqs = JStr w
          ∧ Status sqs xnext =
            {| status_class := "status bounce";
               status_text := "Winner is: " +:+ w |})
  ∧ (calculateWinner sqs = JNull →
       Status sqs xnext =
       {| status_class := "status ";
          status_text := "Next player is: " +:+ (if xnext then "x" else "o") |})
  ∧ (status_class (Status sqs xnext) = "status bounce"
     ↔ calculateWinner sqs ≠ JNull)
  ∧ (Forall (λ c, truthy c = true) drawn_board
     ∧ length drawn_board = 9
     ∧ Status drawn_board xnext =
       {| status_class := "status ";
          status_text := "Next player is: " +:+ (if xnext then "x" else "o") |}).
Proof.
  assert (Hwin : calculateWinner sqs ≠ JNull →
     ∃ w, calculateWinner sqs = JStr w
          ∧ Status sqs xnext =
            {| status_class := "status bounce";
               status_text := "Winner is: " +:+ w |}).
  { intros Hw. apply calculateWinner_truthy_iff in Hw.
    destruct (truthy_is_string _ Hw) as (w & Heq & _). exists w. split; [done|].
    unfold Status. by rewrite Hw, Heq. }
  assert (Hnext : calculateWinner sqs = JNull →
       Status sqs xnext =
       {| status_class := "status ";
          status_text := "Next player is: " +:+ (if xnext then "x" else "o") |}).
  { intros Hw. unfold Status. by rewrite Hw. }
  split; [done|]. split; [done|]. split.
  - split.
    + intros Hclass Hw. rewrite (Hnext Hw) in Hclass. discriminate.
    + intros Hw. destruct (Hwin Hw) as (w & _ & ->). done.
  - split; [by repeat constructor|]. split; [done|]. by destruct xnext.
Qed.

(** ** Moves *)


(** ** jumpTo *)

(** C6: for a step inside the history, jumpTo sets the step number to that
    step and the turn flag to whether the step is even, and keeps the
    history: same length, same entries. *)
Theorem jumpTo_frame (s : state) (step : nat) :
  step < length (history s) →
  stepNumber (jumpTo s step) = step
  ∧ xIsNext (jumpTo s step) = Nat.even step
  ∧ history (jumpTo s step) = history s
  ∧ length (history (jumpTo s step)) = length (history s)
  ∧ (∀ n, history (jumpTo s step) !! n = history s !! n).
Proof.
  intros _. simpl. split; [done|]. split; [apply jump_parity|done].
Qed.

Lemma jumpTo_frame_witness :
  stepNumber (jumpTo four_moves 2) = 2
  ∧ xIsNext (jumpTo four_moves 2) = Nat.even 2
  ∧ history (jumpTo four_moves 2) = history four_moves
  ∧ length (history (jumpTo four_moves 2)) = length (history four_moves)
  ∧ (∀ n, history (jumpTo four_moves 2) !! n = history four_moves !! n).
Proof. apply (jumpTo_frame four_moves 2). vm_compute. lia. Defined.

(** ** handleClick *)

(** C9: handleClick does not check the range of the index.  In the initial
    state, index 9 passes both guards: the click appends an entry whose
    board has ten cells, the tenth holding x, moves the step number to 1 and
    flips the turn flag.  In general, on a board without a winner every
    index past its end is accepted and makes the stored board longer. *)
Theorem handleClick_no_range_check :
  truthy (get empty_board 9) = false
  ∧ calculateWinner empty_board = JNull
  ∧ handleClick initial_state 9 =
    Returns {| history := [ initial_snapshot;
                            {| squares := replicate 9 JNull ++ [JStr "x"];
                               clickIndex := Some 9 |} ];
               xIsNext := false;
               stepNumber := 1 |}
  ∧ length (replicate 9 JNull ++ [JStr "x"]) = 10
  ∧ (∀ s e i,
       history s !! stepNumber s = Some e →
       calculateWinner (squares e) = JNull →
       length (squares e) ≤ i →
       ∃ s' e', handleClick s i = Returns s'
                ∧ s' ≠ s
                ∧ history s' !! stepNumber s' = Some e'
                ∧ length (squares e') = i + 1
                ∧ get (squares e') i = mark (xIsNext s)).
Proof.
  split; [done|]. split; [done|]. split; [done|]. split; [done|].
  intros s e i He Hw Hi.
  pose proof (lookup_lt_Some _ _ _ He) as Hlt.
  exists (after_click s e i). eexists. split.
  - apply handleClick_placed; [done| |done]. by rewrite get_out_of_range.
  - split; [apply after_click_ne|]. split.
    + simpl. rewrite lookup_app_r by (rewrite length_take_le; lia).
      rewrite length_take_le by lia.
      by replace (stepNumber s + 1 - (stepNumber s + 1)) with 0 by lia.
    + simpl. rewrite length_set, get_set_eq. split; [lia|done].
Qed.

(** A run of clicks on a state where the game is won changes nothing. *)
Lemma clicks_won s e ks :
  history s !! stepNumber s = Some e →
  calculateWinner (squares e) ≠ JNull →
  clicks s ks = Returns s.
Proof.
  intros He Hw. induction ks as [|i rest IH]; [done|].
  cbn [clicks]. rewrite (handleClick_ignored s e i He); [done|by right].
Qed.

(** A second click on the same cell is ignored. *)
Lemma handleClick_twice s i s' :
  stepNumber s < length (history s) →
  handleClick s i = Returns s' → handleClick s' i = Returns s'.
Proof.
  intros Hlt Hc.
  destruct (handleClick_cases s i s' Hlt Hc) as [->|(e & He & _ & _ & ->)]; [done|].
  apply (handleClick_ignored _
           {| squares := set (squares e) i (mark (xIsNext s)); clickIndex := Some i |}).
  - simpl. rewrite lookup_app_r by (rewrite length_take_le; lia).
    rewrite length_take_le by lia.
    by replace (stepNumber s + 1 - (stepNumber s + 1)) with 0 by lia.
  - left. simpl. by rewrite get_set_eq, mark_truthy.
Qed.

(** C2: when the cell clicked is non-empty on the board on display, or
    calculateWinner finds a winner on that board, handleClick returns
    normally and leaves the state as it was, history, step number and turn
    flag; and once there is a winner, every run of further clicks leaves the
    state, hence the step number and the length of the history, as it
    was. *)
Theorem handleClick_guard (s : state) (e : snapshot) (i : nat) :
  history s !! stepNumber s = Some e →
  truthy (get (squares e) i) = true ∨ calculateWinner (squares e) ≠ JNull →
  handleClick s i = Returns s
  ∧ (calculateWinner (squares e) ≠ JNull →
       ∀ ks, clicks s ks = Returns s
             ∧ ∀ s', clicks s ks = Returns s' →
                     stepNumber s' = stepNumber s
                     ∧ length (history s') = length (history s)).
Proof.
  intros He Hguard. split; [by apply (handleClick_ignored s e i)|].
  intros Hw ks. rewrite (clicks_won s e ks He Hw). split; [done|].
  by intros s' [= <-].
Qed.

Lemma handleClick_guard_witness :
  handleClick won_game 0 = Returns won_game
  ∧ (calculateWinner
       [JStr "x"; JStr "x"; JStr "x"; JStr "o"; JStr "o"; JNull; JNull; JNull; JNull]
     ≠ JNull →
       ∀ ks, clicks won_game ks = Returns won_game
             ∧ ∀ s', clicks won_game ks = Returns s' →
                     stepNumber s' = stepNumber won_game
                     ∧ length (history s') = length (history won_game)).
Proof.
  apply (handleClick_guard won_game
           {| squares := [JStr "x"; JStr "x"; JStr "x"; JStr "o"; JStr "o";
                          JNull; JNull; JNull; JNull];
              clickIndex := Some 2 |} 0).
  - reflexivity.
  - left. reflexivity.
Defined.

(** C1: when the cell clicked is empty on the board on display and that
    board has no winner, handleClick returns the state whose history is the
    old one cut after the step on display, followed by one new entry, a copy
    of the board on display with the clicked cell set to the symbol of the
    turn flag and the clicked index recorded; whose step number is the new
    length minus one; and whose turn flag is negated.  In particular, after
    jumpTo(2) on a history of five entries, a click on a cell empty at step 2
    leaves four entries: the first three as they were and the new one; the
    former entries 3 and 4 are gone.  In a state of the game the board of
    step 2 never has a winner. *)
Theorem handleClick_appends (s : state) (e : snapshot) (i : nat) :
  history s !! stepNumber s = Some e →
  truthy (get (squares e) i) = false →
  (calculateWinner (squares e) = JNull →
     handleClick s i =
     Returns {| history := take (stepNumber s + 1) (history s)
                           ++ [ {| squares := set (squares e) i (mark (xIsNext s));
                                   clickIndex := Some i |} ];
                stepNumber := length (take (stepNumber s + 1) (history s)
                                      ++ [ {| squares := set (squares e) i (mark (xIsNext s));
                                              clickIndex := Some i |} ]) - 1;
                xIsNext := negb (xIsNext s) |}
     ∧ get (set (squares e) i (mark (xIsNext s))) i = (if xIsNext s then JStr "x" else JStr "o")
     ∧ (∀ j, j ≠ i → get (set (squares e) i (mark (xIsNext s))) j = get (squares e) j)
     ∧ (∀ n, n ≤ stepNumber s →
          take (stepNumber s + 1) (history s) !! n = history s !! n)
     ∧ length (take (stepNumber s + 1) (history s)) = stepNumber s + 1)
  ∧ (∀ s0, s = jumpTo s0 2 → length (history s0) = 5 →
       calculateWinner (squares e) = JNull ∨ reachable s0 →
       ∃ s', handleClick s i = Returns s'
             ∧ length (history s') = 4
             ∧ history s' = take 3 (history s0)
                            ++ [ {| squares := set (squares e) i (JStr "x");
                                    clickIndex := Some i |} ]
             ∧ stepNumber s' = 3
             ∧ xIsNext s' = false).
Proof.
  intros He Hempty. pose proof (lookup_lt_Some _ _ _ He) as Hlt.
  assert (Hlen : length (take (stepNumber s + 1) (history s)) = stepNumber s + 1)
    by (rewrite length_take_le; lia).
  split.
  - intros Hw. split; [|split; [|split; [|split]]].
    + rewrite (handleClick_placed s e i He Hempty Hw). unfold after_click.
      do 2 f_equal. rewrite length_app, Hlen. simpl. lia.
    + rewrite get_set_eq. by destruct (xIsNext s).
    + intros j Hj. by apply get_set_ne.
    + intros n Hn. by rewrite lookup_take_lt by lia.
    + done.
  - intros s0 -> Hfive Hgame. simpl in He, Hempty.
    assert (Hw : calculateWinner (squares e) = JNull).
    { destruct Hgame as [|Hreach]; [done|].
      apply (board_after_no_winner 2); [|lia].
      apply (invariant_board_after s0); [by apply reachable_invariant|done]. }
    exists (after_click (jumpTo s0 2) e i). split; [by apply handleClick_placed|].
    simpl. rewrite length_app, length_take_le by (simpl; lia). done.
Qed.

Lemma handleClick_appends_witness :
  handleClick (jumpTo four_moves 2) 6 =
  Returns {| history := [ initial_snapshot;
                          {| squares := JStr "x" :: replicate 8 JNull;
                             clickIndex := Some 0 |};
                          {| squares := JStr "x" :: replicate 3 JNull
                                        ++ JStr "o" :: replicate 4 JNull;
                             clickIndex := Some 4 |};
                          {| squares := JStr "x" :: replicate 3 JNull
                                        ++ JStr "o" :: JNull :: JStr "x"
                                        :: replicate 2 JNull;
                             clickIndex := Some 6 |} ];
             stepNumber := 3;
             xIsNext := false |}
  ∧ ∃ s', handleClick (jumpTo four_moves 2) 6 = Returns s'
          ∧ length (history s') = 4
          ∧ history s' = take 3 (history four_moves)
                         ++ [ {| squares := set (JStr "x" :: replicate 3 JNull
                                                  ++ JStr "o" :: replicate 4 JNull)
                                                6 (JStr "x");
                                 clickIndex := Some 6 |} ]
          ∧ stepNumber s' = 3
          ∧ xIsNext s' = false.
Proof.
  destruct (handleClick_appends (jumpTo four_moves 2)
              {| squares := JStr "x" :: replicate 3 JNull
                            ++ JStr "o" :: replicate 4 JNull;
                 clickIndex := Some 4 |} 6 eq_refl eq_refl) as [Hgeneral Hjump].
  split.
  - destruct (Hgeneral eq_refl) as [Hclick _]. exact Hclick.
  - apply (Hjump four_moves); [reflexivity|reflexivity|].
    right. apply play_reachable.
Defined.

(** ** States of the game *)



(** C4: in every state reached from the initial one by clicks and by jumps
    to a step inside the history, the turn flag says whether the step number
    is even, and the first history entry is the initial one: the empty board
    of nine cells and no click index. *)
Theorem reachable_turn_and_start (s : state) :
  reachable s →
  xIsNext s = Nat.even (stepNumber s)
  ∧ (xIsNext s = true ↔ stepNumber s mod 2 = 0)
  ∧ history s !! 0 = Some {| squares := replicate 9 JNull; clickIndex := None |}.
Proof.
  intros Hreach. destruct (reachable_invariant s Hreach) as [_ Hturn Hfirst _].
  split; [done|]. split; [|done].
  by rewrite Hturn, <- jump_parity, bool_decide_eq_true.
Qed.

Lemma reachable_turn_and_start_witness :
  xIsNext (jumpTo four_moves 1) = Nat.even (stepNumber (jumpTo four_moves 1))
  ∧ (xIsNext (jumpTo four_moves 1) = true ↔ stepNumber (jumpTo four_moves 1) mod 2 = 0)
  ∧ history (jumpTo four_moves 1) !! 0
    = Some {| squares := replicate 9 JNull; clickIndex := None |}.
Proof.
  apply (reachable_turn_and_start (jumpTo four_moves 1)).
  apply reachable_jump; [apply play_reachable|]. vm_compute. lia.
Defined.

(** ** Board *)

Section board.
Context {A : Type}.
Implicit Types (cells : list nat) (sqs : list value) (onClick : nat → A).

Lemma slice_lookup {B : Type} (a b c : nat) (l : list B) :
  slice a b l !! c = if decide (a + c < b) then l !! (a + c) else None.
Proof.
  unfold slice. rewrite lookup_drop. case_decide.
  - by rewrite lookup_take_lt.
  - by rewrite lookup_take_ge by lia.
Qed.

Lemma length_slice {B : Type} (a b : nat) (l : list B) :
  length (slice a b l) = b `min` length l - a.
Proof. unfold slice. by rewrite length_drop, length_take. Qed.

(** The row built for row number [r] when the counter stands at [r + 1]. *)
Lemma Board_row_lookup cells sqs onClick r rw :
  Board cells sqs onClick !! r = Some rw →
  r < 3
  ∧ row_key rw = pretty r
  ∧ row_squares rw =
    (λ cellID, (pretty cellID, Square (get sqs cellID) (λ _, onClick cellID)))
    <$> slice (r * 3) (r * 3 + 3) cells.
Proof.
  unfold Board. cbn [Board_rows]. intros Hr.
  destruct r as [|[|[|r]]]; simpl in Hr; try done;
    injection Hr as <-; (split; [lia|]); split; done.
Qed.

(** Which squares a board has, and what each is. *)
Lemma Board_squares_iff cells sqs onClick r c key sq :
  (∃ rw, Board cells sqs onClick !! r = Some rw
         ∧ row_squares rw !! c = Some (key, sq))
  ↔ (r < 3 ∧ c < 3
     ∧ ∃ cellID, cells !! (r * 3 + c) = Some cellID
                 ∧ key = pretty cellID
                 ∧ sq = Square (get sqs cellID) (λ _, onClick cellID)).
Proof.
  split.
  - intros (rw & Hrw & Hsq).
    destruct (Board_row_lookup _ _ _ _ _ Hrw) as (Hr & _ & Hrow).
    rewrite Hrow, list_lookup_fmap, slice_lookup in Hsq.
    case_decide as Hc; [|done].
    destruct (cells !! (r * 3 + c)) as [cellID|] eqn:Hcell; [|done].
    simpl in Hsq. injection Hsq as <- <-.
    split; [done|]. split; [lia|]. by exists cellID.
  - intros (Hr & Hc & cellID & Hcell & -> & ->).
    destruct (lookup_lt_is_Some_2 (Board cells sqs onClick) r) as [rw Hrw]; [done|].
    exists rw. split; [done|].
    destruct (Board_row_lookup _ _ _ _ _ Hrw) as (_ & _ & ->).
    rewrite list_lookup_fmap, slice_lookup.
    rewrite decide_True by lia. by rewrite Hcell.
Qed.

(** X1: whatever the list of cells, Board renders three rows and the counter
    makes row r hold cells 3r, 3r+1 and 3r+2 of that list, as far as the
    list goes: the square at column c of row r exists exactly when r < 3,
    c < 3 and the list has a cell at position 3r + c; it then shows the
    content of the squares array at that cell (undefined past its end) and
    its click calls the callback with that cell. *)
Theorem Board_squares cells sqs onClick :
  length (Board cells sqs onClick) = 3
  ∧ ∀ r c key sq,
      (∃ rw, Board cells sqs onClick !! r = Some rw
             ∧ row_squares rw !! c = Some (key, sq))
      ↔ (r < 3 ∧ c < 3
         ∧ ∃ cellID, cells !! (r * 3 + c) = Some cellID
                     ∧ key = pretty cellID
                     ∧ sq = {| square_class := "square " +:+ to_string (get sqs cellID);
                               square_value := get sqs cellID;
                               square_click := λ _, onClick cellID |}).
Proof.
  split; [done|]. intros r c key sq. apply Board_squares_iff.
Qed.
End board.

(** ** render *)

Lemma cells_lookup (k : nat) :
  k < 9 → [0; 1; 2; 3; 4; 5; 6; 7; 8] !! k = Some k.
Proof.
  intros Hk. do 9 (destruct k as [|k]; [done|]). lia.
Qed.

(** X2: a state whose step number is inside the history renders without
    throwing: the board is the 3 by 3 grid of the entry on display, the
    square at row r and column c showing cell 3r + c of it and calling
    handleClick with 3r + c; the status is that of this board and the turn
    flag; the move list is that of the whole history.  No square shows a
    cell past the ninth. *)
Theorem render_grid (s : state) (e : snapshot) :
  history s !! stepNumber s = Some e →
  ∃ v, render s = Returns v
       ∧ view_status v = Status (squares e) (xIsNext s)
       ∧ view_moves v = Moves (history s) (stepNumber s)
       ∧ length (view_board v) = 3
       ∧ (∀ r c, r < 3 → c < 3 →
            ∃ rw key sq, view_board v !! r = Some rw
                         ∧ length (row_squares rw) = 3
                         ∧ row_squares rw !! c = Some (key, sq)
                         ∧ square_value sq = get (squares e) (r * 3 + c)
                         ∧ square_click sq () = handleClick s (r * 3 + c))
       ∧ (∀ r rw c key sq,
            view_board v !! r = Some rw → row_squares rw !! c = Some (key, sq) →
            r < 3 ∧ c < 3).
Proof.
  intros He. unfold render. rewrite He. cbn zeta. eexists. split; [done|].
  cbn [view_status view_moves view_board].
  split; [done|]. split; [done|]. split; [done|]. split.
  - intros r c Hr Hc.
    destruct (lookup_lt_is_Some_2
                (Board [0; 1; 2; 3; 4; 5; 6; 7; 8] (squares e) (handleClick s)) r)
      as [rw Hrw]; [done|].
    destruct (Board_row_lookup _ _ _ _ _ Hrw) as (_ & _ & Hrow).
    exists rw. eexists _, _. split; [done|]. split; [|split].
    + rewrite Hrow, length_fmap, length_slice. simpl. lia.
    + rewrite Hrow, list_lookup_fmap, slice_lookup, decide_True by lia.
      rewrite cells_lookup by lia. done.
    + done.
  - intros r rw c key sq Hrw Hsq.
    assert (∃ rw, Board [0; 1; 2; 3; 4; 5; 6; 7; 8] (squares e) (handleClick s) !! r
                  = Some rw ∧ row_squares rw !! c = Some (key, sq)) as Hex
      by (by exists rw).
    apply Board_squares_iff in Hex as (Hr & Hc & _). done.
Qed.

Lemma render_grid_witness :
  ∃ v, render four_moves = Returns v
       ∧ view_status v
         = Status [JStr "x"; JNull; JStr "o"; JNull; JStr "o"; JNull; JNull; JNull; JStr "x"]
                  (xIsNext four_moves)
       ∧ length (view_board v) = 3.
Proof.
  destruct (render_grid four_moves
              {| squares := [JStr "x"; JNull; JStr "o"; JNull; JStr "o";
                             JNull; JNull; JNull; JStr "x"];
                 clickIndex := Some 2 |} eq_refl) as (v & Hv & Hst & _ & Hlen & _).
  exists v. split; [exact Hv|]. split; [exact Hst|exact Hlen].
Defined.

(** X3: render throws exactly when the step number is not inside the
    history; so after jumpTo(step) the page renders exactly when step is
    less than the length of the history, and every state of the game
    renders. *)
Theorem render_throws_iff (s : state) :
  (render s = TypeError ↔ length (history s) ≤ stepNumber s)
  ∧ (∀ step, render (jumpTo s step) = TypeError ↔ length (history s) ≤ step)
  ∧ (reachable s → ∃ v, render s = Returns v).
Proof.
  assert (Hiff : ∀ s0, render s0 = TypeError ↔ length (history s0) ≤ stepNumber s0).
  { intros s0. unfold render.
    destruct (history s0 !! stepNumber s0) as [e|] eqn:He.
    - apply lookup_lt_Some in He. split; [done|lia].
    - apply lookup_ge_None in He. done. }
  split; [apply Hiff|]. split; [intros step; apply (Hiff (jumpTo s step))|].
  intros Hreach. destruct (render s) as [v|] eqn:Hr; [by exists v|].
  apply Hiff in Hr. pose proof (inv_step s (reachable_invariant s Hreach)). lia.
Qed.

(** ** handleClick at the edges *)

(** X4: handleClick throws exactly when the history is empty, whatever the
    step number and the index. *)
Theorem handleClick_throws_iff (s : state) (i : nat) :
  handleClick s i = TypeError ↔ history s = [].
Proof.
  unfold handleClick. split.
  - destruct (history s) as [|e0 h] eqn:Hh; [done|]. intros Hc.
    destruct (lookup_lt_is_Some_2 (take (stepNumber s + 1) (e0 :: h))
                (length (take (stepNumber s + 1) (e0 :: h)) - 1)) as [e He].
    { rewrite length_take. simpl. lia. }
    rewrite He in Hc. cbn zeta in Hc.
    by destruct (truthy (get (squares e) i) || truthy (calculateWinner (squares e))).
  - intros ->. by rewrite take_nil.
Qed.

(** X5: with the step number past the end of a non-empty history, the slice
    is the whole history and the click works on its last entry: it is
    ignored when the cell is non-empty or that board has a winner, and
    otherwise appends to the whole history, with the symbol of the turn
    flag, and sets the step number to the position of the new entry. *)
Theorem handleClick_past_end (s : state) (e : snapshot) (i : nat) :
  length (history s) ≤ stepNumber s →
  last (history s) = Some e →
  handleClick s i =
  Returns (if truthy (get (squares e) i) || truthy (calculateWinner (squares e))
           then s
           else {| history := history s
                              ++ [ {| squares := set (squares e) i (mark (xIsNext s));
                                      clickIndex := Some i |} ];
                   stepNumber := length (history s);
                   xIsNext := negb (xIsNext s) |}).
Proof.
  intros Hlen Hlast. unfold handleClick.
  rewrite take_ge by lia. rewrite last_lookup in Hlast.
  replace (length (history s) - 1) with (pred (length (history s))) by lia.
  rewrite Hlast. cbn zeta.
  by destruct (truthy (get (squares e) i) || truthy (calculateWinner (squares e))).
Qed.

Lemma handleClick_past_end_witness :
  handleClick (jumpTo initial_state 7) 4 =
  Returns {| history := [ initial_snapshot;
                          {| squares := replicate 4 JNull ++ JStr "o" :: replicate 4 JNull;
                             clickIndex := Some 4 |} ];
             stepNumber := 1;
             xIsNext := true |}.
Proof.
  apply (handleClick_past_end (jumpTo initial_state 7) initial_snapshot 4).
  - simpl. lia.
  - reflexivity.
Defined.

(** ** jumpTo *)

(** X6: of two jumps in a row only the second counts, and in a state of the
    game a jump to the step on display changes nothing; so jumping away and
    back restores the state, turn flag included. *)
Theorem jumpTo_back (s : state) (k : nat) :
  reachable s →
  (∀ a b, jumpTo (jumpTo s a) b = jumpTo s b)
  ∧ jumpTo s (stepNumber s) = s
  ∧ jumpTo (jumpTo s k) (stepNumber s) = s.
Proof.
  intros Hreach. pose proof (inv_turn s (reachable_invariant s Hreach)) as Hturn.
  assert (Hsame : jumpTo s (stepNumber s) = s).
  { unfold jumpTo. rewrite jump_parity, <- Hturn. by destruct s. }
  split; [done|]. split; [done|]. exact Hsame.
Qed.

Lemma jumpTo_back_witness :
  (∀ a b, jumpTo (jumpTo four_moves a) b = jumpTo four_moves b)
  ∧ jumpTo four_moves (stepNumber four_moves) = four_moves
  ∧ jumpTo (jumpTo four_moves 1) (stepNumber four_moves) = four_moves.
Proof. apply (jumpTo_back four_moves 1). apply play_reachable. Defined.

(** ** Who wins, and when *)

Lemma open_before_last_after_click s e i :
  stepNumber s < length (history s) →
  history s !! stepNumber s = Some e →
  calculateWinner (squares e) = JNull →
  open_before_last s → open_before_last (after_click s e i).
Proof.
  intros Hlt He Hw Hopen n e1 e2. simpl. intros H1 H2.
  assert (Hlen : length (take (stepNumber s + 1) (history s)) = stepNumber s + 1)
    by (rewrite length_take_le; lia).
  destruct (decide (S n < stepNumber s + 1)) as [Hn|Hn].
  - rewrite lookup_app_l, lookup_take_lt in H1 by lia.
    rewrite lookup_app_l, lookup_take_lt in H2 by lia.
    by apply (Hopen n e1 e2).
  - pose proof (lookup_lt_Some _ _ _ H2) as Hn2.
    rewrite length_app, Hlen in Hn2. simpl in Hn2.
    assert (n = stepNumber s) as -> by lia.
    rewrite lookup_app_l, lookup_take_lt in H1 by lia. congruence.
Qed.

Lemma reachable_open_before_last s : reachable s → open_before_last s.
Proof.
  induction 1 as [|s i s' Hreach IH Hc|s step _ IH Hlt].
  - intros n e e' _ He'. by destruct n.
  - pose proof (inv_step s (reachable_invariant s Hreach)) as Hlt.
    destruct (handleClick_cases s i s' Hlt Hc) as [->|(e & He & _ & Hw & ->)]; [done|].
    by apply open_before_last_after_click.
  - done.
Qed.

(** A line that is filled after a write and does not go through the cell
    written was filled before. *)
Lemma filled_set_elsewhere sqs i v l :
  filled (set sqs i v) l → l.1.1 ≠ i → l.1.2 ≠ i → l.2 ≠ i → filled sqs l.
Proof.
  unfold filled. intros H Ha Hb Hc.
  by rewrite !get_set_ne in H by done.
Qed.

(** When a write into a board without a winner makes a winner, the winner is
    the value written. *)
Lemma winner_is_written sqs i v :
  calculateWinner sqs = JNull →
  calculateWinner (set sqs i v) ≠ JNull →
  calculateWinner (set sqs i v) = v.
Proof.
  intros Hnone Hw.
  destruct (calculateWinner_result (set sqs i v)) as [?|(l & Hl & Hf & Heq)]; [done|].
  rewrite Heq. destruct Hf as (Ht & Hb & Hc).
  destruct (decide (l.1.1 = i)) as [<-|Ha]; [apply get_set_eq|].
  destruct (decide (l.1.2 = i)) as [<-|Hb']; [rewrite Hb; apply get_set_eq|].
  destruct (decide (l.2 = i)) as [<-|Hc']; [rewrite Hc; apply get_set_eq|].
  destruct (scan_null sqs lines Hnone l Hl).
  by apply (filled_set_elsewhere sqs i v).
Qed.

(** The winner of a stored board, when there is one. *)
Lemma entry_winner s n e :
  reachable s →
  history s !! n = Some e →
  calculateWinner (squares e) ≠ JNull →
  n + 1 = length (history s)
  ∧ 5 ≤ n
  ∧ calculateWinner (squares e) = mark (negb (Nat.even n)).
Proof.
  intros Hreach He Hw. pose proof (reachable_invariant s Hreach) as Hinv.
  pose proof (reachable_open_before_last s Hreach) as Hopen.
  split; [|split].
  - pose proof (lookup_lt_Some _ _ _ He) as Hn.
    destruct (decide (S n < length (history s))) as [Hlt|]; [|lia].
    destruct (lookup_lt_is_Some_2 _ _ Hlt) as [e' He'].
    by destruct Hw; apply (Hopen n e e').
  - destruct (decide (n < 5)) as [Hn|]; [|lia].
    destruct Hw. apply (board_after_no_winner n); [|done].
    by apply (invariant_board_after s).
  - destruct n as [|n].
    + rewrite (inv_first s Hinv) in He. injection He as <-. done.
    + assert (is_Some (history s !! n)) as [e0 He0].
      { apply lookup_lt_is_Some_2. apply lookup_lt_Some in He. lia. }
      destruct (inv_chain s Hinv n e0 e He0 He) as (i & _ & Hsq & _).
      rewrite Hsq in *. rewrite Nat.even_succ, <- Nat.negb_even, negb_involutive.
      apply winner_is_written; [|done]. by apply (Hopen n e0 e).
Qed.

(** X7: in every state of the game, only the last entry of the history can
    hold a winner; no entry before the sixth holds one; and the winner of
    an entry is the player who made its move: x at an odd position, o at an
    even one.  So on the board on display a winner is never the player the
    turn flag names as next. *)
Theorem winner_moved_last (s : state) :
  reachable s →
  (∀ n e, history s !! n = Some e → calculateWinner (squares e) ≠ JNull →
     n + 1 = length (history s)
     ∧ 5 ≤ n
     ∧ calculateWinner (squares e) = (if Nat.odd n then JStr "x" else JStr "o"))
  ∧ (∀ e, history s !! stepNumber s = Some e →
       calculateWinner (squares e) ≠ JNull →
       calculateWinner (squares e) = mark (negb (xIsNext s))).
Proof.
  intros Hreach. split.
  - intros n e He Hw. destruct (entry_winner s n e Hreach He Hw) as (H1 & H2 & ->).
    split; [done|]. split; [done|].
    rewrite <- Nat.negb_even. by destruct (Nat.even n).
  - intros e He Hw. destruct (entry_winner s _ e Hreach He Hw) as (_ & _ & ->).
    by rewrite (inv_turn s (reachable_invariant s Hreach)).
Qed.

Lemma winner_moved_last_witness :
  (∀ n e, history won_game !! n = Some e → calculateWinner (squares e) ≠ JNull →
     n + 1 = length (history won_game)
     ∧ 5 ≤ n
     ∧ calculateWinner (squares e) = (if Nat.odd n then JStr "x" else JStr "o"))
  ∧ (∀ e, history won_game !! stepNumber won_game = Some e →
       calculateWinner (squares e) ≠ JNull →
       calculateWinner (squares e) = mark (negb (xIsNext won_game))).
Proof. apply (winner_moved_last won_game). apply play_reachable. Defined.

Example won_game_winner :
  ∃ e, history won_game !! 5 = Some e ∧ calculateWinner (squares e) = JStr "x"
       ∧ stepNumber won_game = 5 ∧ xIsNext won_game = false.
Proof. eexists. repeat split; reflexivity. Qed.

(** X8: what the status line of a state of the game reads: while nobody has
    won on the board on display, the next player, x at an even step and o
    at an odd one; once somebody has, that winner, who is the other player
    than the one the turn flag names, and the bounce class. *)
Theorem Status_of_game (s : state) (e : snapshot) :
  reachable s →
  history s !! stepNumber s = Some e →
  (calculateWinner (squares e) = JNull
   ∧ Status (squares e) (xIsNext s) =
     {| status_class := "status ";
        status_text := "Next player is: "
                       +:+ (if Nat.even (stepNumber s) then "x" else "o") |})
  ∨ (calculateWinner (squares e) ≠ JNull
     ∧ 5 ≤ stepNumber s
     ∧ Status (squares e) (xIsNext s) =
       {| status_class := "status bounce";
          status_text := "Winner is: "
                         +:+ (if Nat.even (stepNumber s) then "o" else "x") |}).
Proof.
  intros Hreach He.
  pose proof (inv_turn s (reachable_invariant s Hreach)) as Hturn.
  destruct (decide (calculateWinner (squares e) = JNull)) as [Hw|Hw].
  - left. split; [done|]. unfold Status. by rewrite Hw, Hturn.
  - right. split; [done|].
    destruct (entry_winner s (stepNumber s) e Hreach He Hw) as (_ & Hfive & Heq).
    split; [done|]. unfold Status. rewrite Heq.
    by destruct (Nat.even (stepNumber s)).
Qed.

Lemma Status_of_game_witness :
  (calculateWinner [JStr "x"; JStr "x"; JStr "x"; JStr "o"; JStr "o";
                    JNull; JNull; JNull; JNull] = JNull
   ∧ Status [JStr "x"; JStr "x"; JStr "x"; JStr "o"; JStr "o";
             JNull; JNull; JNull; JNull] (xIsNext won_game) =
     {| status_class := "status ";
        status_text := "Next player is: "
                       +:+ (if Nat.even (stepNumber won_game) then "x" else "o") |})
  ∨ (calculateWinner [JStr "x"; JStr "x"; JStr "x"; JStr "o"; JStr "o";
                      JNull; JNull; JNull; JNull] ≠ JNull
     ∧ 5 ≤ stepNumber won_game
     ∧ Status [JStr "x"; JStr "x"; JStr "x"; JStr "o"; JStr "o";
               JNull; JNull; JNull; JNull] (xIsNext won_game) =
       {| status_class := "status bounce";
          status_text := "Winner is: "
                         +:+ (if Nat.even (stepNumber won_game) then "o" else "x") |}).
Proof.
  apply (Status_of_game won_game
           {| squares := [JStr "x"; JStr "x"; JStr "x"; JStr "o"; JStr "o";
                          JNull; JNull; JNull; JNull];
              clickIndex := Some 2 |}).
  - apply play_reachable.
  - reflexivity.
Defined.

(** ** Games played on the board *)

Lemma playable_reachable s : playable s → reachable s.
Proof.
  induction 1 as [|s i s' _ IH _ Hc|s step _ IH Hlt].
  - constructor.
  - by apply (reachable_click s i).
  - by apply reachable_jump.
Qed.

Lemma playable_nine_cells s : playable s → nine_cells s.
Proof.
  induction 1 as [|s i s' Hplay IH Hi Hc|s step _ IH Hlt].
  - intros n e He. destruct n; [|done]. by injection He as <-.
  - pose proof (inv_step s (reachable_invariant s (playable_reachable s Hplay))) as Hlt.
    destruct (handleClick_cases s i s' Hlt Hc) as [->|(e & He & _ & _ & ->)]; [done|].
    intros n e' He'. simpl in He'.
    apply lookup_app_Some in He' as [He'|[_ He']].
    + apply lookup_take_Some in He' as [He' _]. by apply (IH n).
    + apply list_lookup_singleton_Some in He' as [_ <-]. simpl.
      rewrite length_set, (IH _ e He). lia.
  - done.
Qed.

Section marks.
Implicit Types (sqs : list value) (v w : value).

Lemma symbol_count_two_le v w sqs :
  v ≠ w → symbol_count v sqs + symbol_count w sqs ≤ length sqs.
Proof.
  intros Hne. induction sqs as [|c sqs IH]; [done|].
  rewrite !symbol_count_cons. simpl.
  repeat case_decide; try lia. congruence.
Qed.

(** When two values fill a whole array, each cell holds one of them. *)
Lemma symbol_count_two_full v w sqs :
  v ≠ w → symbol_count v sqs + symbol_count w sqs = length sqs →
  Forall (λ c, c = v ∨ c = w) sqs.
Proof.
  intros Hne. induction sqs as [|c sqs IH]; intros Hfull; [constructor|].
  rewrite !symbol_count_cons in Hfull. simpl in Hfull.
  pose proof (symbol_count_two_le v w sqs Hne).
  constructor.
  - repeat case_decide; auto. lia.
  - apply IH. repeat case_decide; try lia. congruence.
Qed.

Lemma half_sum (n : nat) : (n + 1) / 2 + n / 2 = n.
Proof.
  destruct (Nat.Even_or_Odd n) as [[k ->]|[k ->]].
  - rewrite half_double, half_double_succ. lia.
  - replace (2 * k + 1 + 1) with (2 * (k + 1)) by lia.
    rewrite half_double, half_double_succ. lia.
Qed.

(** A board after [n] moves has room for them. *)
Lemma board_after_length n sqs : board_after n sqs → n ≤ length sqs.
Proof.
  intros (_ & Hx & Ho).
  pose proof (symbol_count_two_le (JStr "x") (JStr "o") sqs).
  rewrite Hx, Ho, half_sum in H. apply H. done.
Qed.

Lemma board_after_full n sqs :
  board_after n sqs → length sqs = n → Forall (λ c, truthy c = true) sqs.
Proof.
  intros (_ & Hx & Ho) Hlen.
  eapply Forall_impl.
  - apply (symbol_count_two_full (JStr "x") (JStr "o")); [done|].
    rewrite Hx, Ho, half_sum. done.
  - intros c [->| ->]; done.
Qed.
End marks.

(** X9: in a game played with the indices 0 to 8, every stored board has
    nine cells, the history has at most ten entries and the step number
    is at most 9. *)
Theorem playable_bounds (s : state) :
  playable s →
  (∀ n e, history s !! n = Some e → length (squares e) = 9 ∧ n ≤ 9)
  ∧ length (history s) ≤ 10
  ∧ stepNumber s ≤ 9.
Proof.
  intros Hplay. pose proof (playable_nine_cells s Hplay) as Hnine.
  pose proof (reachable_invariant s (playable_reachable s Hplay)) as Hinv.
  assert (Hn : ∀ n e, history s !! n = Some e → n ≤ 9).
  { intros n e He. rewrite <- (Hnine n e He).
    apply board_after_length. by apply (invariant_board_after s). }
  split; [|split].
  - intros n e He. split; [by apply (Hnine n)|by apply (Hn n e)].
  - destruct (decide (length (history s) ≤ 10)) as [|Hlong]; [done|].
    destruct (lookup_lt_is_Some_2 (history s) 10) as [e He]; [lia|].
    specialize (Hn 10 e He). lia.
  - destruct (lookup_lt_is_Some_2 _ _ (inv_step s Hinv)) as [e He].
    by apply (Hn _ e).
Qed.

Lemma playable_bounds_witness :
  (∀ n e, history four_moves !! n = Some e → length (squares e) = 9 ∧ n ≤ 9)
  ∧ length (history four_moves) ≤ 10
  ∧ stepNumber four_moves ≤ 9.
Proof.
  apply (playable_bounds four_moves).
  apply (playable_click (play [0; 4; 8]) 2); [|lia|reflexivity].
  apply (playable_click (play [0; 4]) 8); [|lia|reflexivity].
  apply (playable_click (play [0]) 4); [|lia|reflexivity].
  apply (playable_click initial_state 0); [|lia|reflexivity].
  apply playable_initial.
Defined.

(** X10: a game played with the indices 0 to 8 that stands at step 9 shows a
    full board: every click on one of its nine cells is ignored, and when
    nobody has won the status line still names o as the next player. *)
Theorem full_board_is_final (s : state) (e : snapshot) :
  playable s →
  stepNumber s = 9 →
  history s !! stepNumber s = Some e →
  Forall (λ c, truthy c = true) (squares e)
  ∧ (∀ i, i < 9 → handleClick s i = Returns s)
  ∧ (calculateWinner (squares e) = JNull →
       Status (squares e) (xIsNext s) =
       {| status_class := "status "; status_text := "Next player is: o" |}).
Proof.
  intros Hplay Hnine He.
  pose proof (reachable_invariant s (playable_reachable s Hplay)) as Hinv.
  assert (Hfull : Forall (λ c, truthy c = true) (squares e)).
  { apply (board_after_full 9).
    - rewrite <- Hnine. by apply (invariant_board_after s).
    - by apply (playable_nine_cells s Hplay (stepNumber s)). }
  split; [done|]. split.
  - intros i Hi. apply (handleClick_ignored s e i He). left.
    destruct (lookup_lt_is_Some_2 (squares e) i) as [c Hc].
    { rewrite (playable_nine_cells s Hplay _ e He). done. }
    rewrite (get_lookup _ _ _ Hc).
    by apply (Forall_lookup_1 _ _ _ _ Hfull Hc).
  - intros Hw. unfold Status. rewrite Hw, (inv_turn s Hinv), Hnine. done.
Qed.

Lemma clicks_playable ks : ∀ s s',
  playable s → Forall (λ i, i < 9) ks → clicks s ks = Returns s' → playable s'.
Proof.
  induction ks as [|i rest IH]; intros s s' Hplay Hks Hrun.
  - by injection Hrun as <-.
  - cbn [clicks] in Hrun. destruct (handleClick s i) as [s1|] eqn:Hc; [|done].
    apply Forall_cons in Hks as [Hi Hrest].
    apply (IH s1); [|done..]. by apply (playable_click s i).
Qed.

Lemma play_playable ks : Forall (λ i, i < 9) ks → playable (play ks).
Proof.
  intros Hks. unfold play. destruct (clicks initial_state ks) as [s|] eqn:Hrun.
  - apply (clicks_playable ks initial_state); [constructor|done..].
  - constructor.
Qed.

Lemma full_board_is_final_witness :
  Forall (λ c, truthy c = true) drawn_board
  ∧ (∀ i, i < 9 → handleClick drawn_game i = Returns drawn_game)
  ∧ (calculateWinner drawn_board = JNull →
       Status drawn_board (xIsNext drawn_game) =
       {| status_class := "status "; status_text := "Next player is: o" |}).
Proof.
  apply (full_board_is_final drawn_game
           {| squares := drawn_board; clickIndex := Some 8 |}).
  - apply play_playable. repeat constructor.
  - reflexivity.
  - reflexivity.
Defined.

(** ** Events *)

(** An event on the page of a state of a game played on the board does not
    throw and leaves such a state. *)
Lemma fire_playable s ev :
  playable s → ∃ s', fire s ev = Returns s' ∧ playable s'.
Proof.
  intros Hplay.
  pose proof (reachable_invariant s (playable_reachable s Hplay)) as Hinv.
  destruct (lookup_lt_is_Some_2 _ _ (inv_step s Hinv)) as [e He].
  unfold fire, render. rewrite He. cbn zeta.
  destruct ev as [r c|n]; cbn [view_board view_moves].
  - destruct (Board _ (squares e) (handleClick s) !! r) as [rw|] eqn:Hrw;
      [|by exists s].
    destruct (row_squares rw !! c) as [[key sq]|] eqn:Hsq; [|by exists s].
    assert (∃ rw, Board [0; 1; 2; 3; 4; 5; 6; 7; 8] (squares e) (handleClick s) !! r
                  = Some rw ∧ row_squares rw !! c = Some (key, sq)) as Hex
      by (by exists rw).
    apply Board_squares_iff in Hex as (Hr & Hc & cellID & Hcell & _ & ->).
    rewrite cells_lookup in Hcell by lia. injection Hcell as <-.
    cbn [Square square_click].
    destruct (invariant_handleClick_returns s (r * 3 + c) Hinv) as [s' Hs'].
    exists s'. split; [done|]. apply (playable_click s (r * 3 + c)); [done|lia|done].
  - unfold Moves. rewrite list_lookup_imap.
    destruct (history s !! n) as [step|] eqn:Hn; [|by exists s].
    simpl. eexists. split; [done|].
    apply playable_jump; [done|]. by apply lookup_lt_Some in Hn.
Qed.

(** X11: whatever squares and move buttons are clicked, in whatever order,
    starting from the initial page, no handler and no render throws, every
    stored board keeps nine cells and the history never exceeds ten
    entries. *)
Theorem events_are_safe (evs : list event) :
  ∃ s, fire_all initial_state evs = Returns s
       ∧ reachable s
       ∧ (∃ v, render s = Returns v)
       ∧ (∀ n e, history s !! n = Some e → length (squares e) = 9)
       ∧ length (history s) ≤ 10.
Proof.
  assert (Hall : ∀ s0, playable s0 →
            ∃ s, fire_all s0 evs = Returns s ∧ playable s).
  { induction evs as [|ev rest IH]; intros s0 Hplay; [by exists s0|].
    destruct (fire_playable s0 ev Hplay) as (s1 & Hfire & Hplay1).
    cbn [fire_all]. rewrite Hfire. by apply IH. }
  destruct (Hall initial_state playable_initial) as (s & Hrun & Hplay).
  pose proof (playable_reachable s Hplay) as Hreach.
  pose proof (inv_step s (reachable_invariant s Hreach)) as Hlt.
  exists s. split; [done|]. split; [done|]. split; [|split].
  - destruct (lookup_lt_is_Some_2 _ _ Hlt) as [e He].
    unfold render. rewrite He. by eexists.
  - apply (playable_nine_cells s Hplay).
  - destruct (decide (length (history s) ≤ 10)) as [|Hlong]; [done|].
    destruct (lookup_lt_is_Some_2 (history s) 10) as [e He]; [lia|].
    pose proof (board_after_length 10 (squares e)
                  (invariant_board_after s 10 e (reachable_invariant s Hreach) He)).
    rewrite (playable_nine_cells s Hplay 10 e He) in H. lia.
Qed.

(** X12: how the page is wired.  On a state whose step number is inside the
    history, a click on the square at row r and column c runs handleClick
    with 3r + c when r and c are below 3, and nothing otherwise; a click on
    move button n runs jumpTo with n when the history has an entry n, and
    nothing otherwise. *)
Theorem fire_wiring (s : state) (r c n : nat) :
  stepNumber s < length (history s) →
  fire s (click_square r c)
  = (if decide (r < 3 ∧ c < 3) then handleClick s (r * 3 + c) else Returns s)
  ∧ fire s (click_move n)
    = Returns (if decide (n < length (history s)) then jumpTo s n else s).
Proof.
  intros Hlt. destruct (lookup_lt_is_Some_2 _ _ Hlt) as [e He].
  unfold fire, render. rewrite He. cbn zeta. cbn [view_board view_moves]. split.
  - destruct (Board _ (squares e) (handleClick s) !! r) as [rw|] eqn:Hrw.
    + destruct (row_squares rw !! c) as [[key sq]|] eqn:Hsq.
      * assert (∃ rw, Board [0; 1; 2; 3; 4; 5; 6; 7; 8] (squares e) (handleClick s) !! r
                      = Some rw ∧ row_squares rw !! c = Some (key, sq)) as Hex
          by (by exists rw).
        apply Board_squares_iff in Hex as (Hr & Hc & cellID & Hcell & _ & ->).
        rewrite cells_lookup in Hcell by lia. injection Hcell as <-.
        by rewrite decide_True.
      * rewrite decide_False; [done|]. intros [Hr Hc].
        destruct (proj2 (Board_squares_iff [0; 1; 2; 3; 4; 5; 6; 7; 8] (squares e)
                           (handleClick s) r c (pretty (r * 3 + c))
                           (Square (get (squares e) (r * 3 + c))
                                   (λ _, handleClick s (r * 3 + c)))))
          as (rw' & Hrw' & Hsq').
        { split; [done|]. split; [done|]. exists (r * 3 + c).
          by rewrite cells_lookup by lia. }
        congruence.
    + rewrite decide_False; [done|]. intros [Hr _].
      apply lookup_ge_None in Hrw. unfold Board in Hrw. simpl in Hrw. lia.
  - unfold Moves. rewrite list_lookup_imap.
    destruct (history s !! n) as [step|] eqn:Hn; simpl.
    + rewrite decide_True; [done|]. by apply lookup_lt_Some in Hn.
    + rewrite decide_False; [done|]. apply lookup_ge_None in Hn. lia.
Qed.

Lemma fire_wiring_witness :
  fire four_moves (click_square 2 0)
  = (if decide (2 < 3 ∧ 0 < 3) then handleClick four_moves (2 * 3 + 0)
     else Returns four_moves)
  ∧ fire four_moves (click_move 1)
    = Returns (if decide (1 < length (history four_moves))
               then jumpTo four_moves 1 else four_moves).
Proof. apply (fire_wiring four_moves 2 0 1). vm_compute. lia. Defined.

Lemma decode_row (r c : nat) : c < 3 → (r * 3 + c) / 3 = r.
Proof.
  intros Hc. rewrite Nat.div_add_l by done. rewrite Nat.div_small by done. lia.
Qed.

Lemma decode_col (r c : nat) : c < 3 → (r * 3 + c) mod 3 = c.
Proof.
  intros Hc. rewrite Nat.add_comm, Nat.Div0.mod_add. by apply Nat.mod_small.
Qed.

(** X13: the index Board hands to handleClick and the position Moves prints
    agree.  A click on an empty square at row r and column c of a board
    without a winner adds a move whose button, the last of the list and the
    highlighted one, reads "Go to move #m (row:r, col:c)" with m the new
    step number, and jumps to m. *)
Theorem square_click_label (s : state) (e : snapshot) (r c : nat) :
  history s !! stepNumber s = Some e →
  r < 3 → c < 3 →
  truthy (get (squares e) (r * 3 + c)) = false →
  calculateWinner (squares e) = JNull →
  ∃ s' b, fire s (click_square r c) = Returns s'
          ∧ stepNumber s' = stepNumber s + 1
          ∧ length (history s') = stepNumber s + 2
          ∧ Moves (history s') (stepNumber s') !! (stepNumber s + 1) = Some b
          ∧ button_desc b =
            "Go to move #" +:+ pretty (stepNumber s + 1)
              +:+ " (row:" +:+ pretty r +:+ ", col:" +:+ pretty c +:+ ")"
          ∧ button_class b = "btn btn-primary btn-block"
          ∧ button_onClick b = stepNumber s + 1.
Proof.
  intros He Hr Hc Hempty Hw. pose proof (lookup_lt_Some _ _ _ He) as Hlt.
  assert (Hfire : fire s (click_square r c) = Returns (after_click s e (r * 3 + c))).
  { unfold fire, render. rewrite He. cbn zeta. cbn [view_board].
    destruct (proj2 (Board_squares_iff [0; 1; 2; 3; 4; 5; 6; 7; 8] (squares e)
                       (handleClick s) r c (pretty (r * 3 + c))
                       (Square (get (squares e) (r * 3 + c))
                               (λ _, handleClick s (r * 3 + c)))))
      as (rw & -> & ->).
    { split; [done|]. split; [done|]. exists (r * 3 + c).
      by rewrite cells_lookup by lia. }
    cbn [Square square_click]. by apply handleClick_placed. }
  eexists _, _. split; [exact Hfire|]. split; [done|].
  split; [by apply length_after_click|]. split.
  - unfold Moves. rewrite list_lookup_imap. cbn [after_click history stepNumber].
    rewrite lookup_app_r by (rewrite length_take_le; lia).
    rewrite length_take_le by lia.
    replace (stepNumber s + 1 - (stepNumber s + 1)) with 0 by lia. reflexivity.
  - cbn [button_desc button_class button_onClick clickIndex to_number default].
    unfold id. rewrite decode_row, decode_col by done.
    rewrite bool_decide_eq_true_2 by done.
    split; [|done]. by rewrite Nat.add_1_r.
Qed.

Lemma square_click_label_witness :
  ∃ s' b, fire initial_state (click_square 1 1) = Returns s'
          ∧ stepNumber s' = stepNumber initial_state + 1
          ∧ length (history s') = stepNumber initial_state + 2
          ∧ Moves (history s') (stepNumber s') !! (stepNumber initial_state + 1) = Some b
          ∧ button_desc b =
            "Go to move #" +:+ pretty (stepNumber initial_state + 1)
              +:+ " (row:" +:+ pretty 1 +:+ ", col:" +:+ pretty 1 +:+ ")"
          ∧ button_class b = "btn btn-primary btn-block"
          ∧ button_onClick b = stepNumber initial_state + 1.
Proof.
  apply (square_click_label initial_state initial_snapshot 1 1);
    [reflexivity|lia|lia|reflexivity|reflexivity].
Defined.

(** ** What a click leaves alone *)

(** X14: a click that returns never rewrites the past: every entry at or
    before the step on display stays where it was, the history grows by at
    most one entry, and when the step number is inside the history it stays
    or goes up by one. *)
Theorem handleClick_keeps_past (s s' : state) (i : nat) :
  handleClick s i = Returns s' →
  (∀ n, n ≤ stepNumber s → n < length (history s) →
        history s' !! n = history s !! n)
  ∧ length (history s') ≤ length (history s) + 1
  ∧ (stepNumber s < length (history s) →
       (s' = s ∨ (stepNumber s' = stepNumber s + 1
                  ∧ length (history s') = stepNumber s + 2))).
Proof.
  unfold handleClick. intros Hc.
  destruct (take (stepNumber s + 1) (history s)
              !! (length (take (stepNumber s + 1) (history s)) - 1))
    as [e|] eqn:He; [|done].
  cbn zeta in Hc.
  destruct (truthy (get (squares e) i) || truthy (calculateWinner (squares e))).
  - injection Hc as <-. split; [done|]. split; [lia|]. by left.
  - injection Hc as <-. cbn [history stepNumber]. split; [|split].
    + intros n Hn Hlen.
      rewrite lookup_app_l by (rewrite length_take; lia).
      by rewrite lookup_take_lt by lia.
    + rewrite length_app, length_take. simpl. lia.
    + intros Hlt. right. rewrite length_app, length_take_le by lia. simpl. lia.
Qed.

Lemma handleClick_keeps_past_witness :
  (∀ n, n ≤ stepNumber (jumpTo four_moves 2) →
        n < length (history (jumpTo four_moves 2)) →
        history (play [0; 4; 6]) !! n = history (jumpTo four_moves 2) !! n)
  ∧ length (history (play [0; 4; 6])) ≤ length (history (jumpTo four_moves 2)) + 1
  ∧ (stepNumber (jumpTo four_moves 2) < length (history (jumpTo four_moves 2)) →
       (play [0; 4; 6] = jumpTo four_moves 2
        ∨ (stepNumber (play [0; 4; 6]) = stepNumber (jumpTo four_moves 2) + 1
           ∧ length (history (play [0; 4; 6])) = stepNumber (jumpTo four_moves 2) + 2))).
Proof. apply (handleClick_keeps_past (jumpTo four_moves 2) (play [0; 4; 6]) 6). reflexivity. Defined.

(** ** Cells past the ninth *)

Lemma lines_below_nine l : l ∈ lines → l.1.1 < 9 ∧ l.1.2 < 9 ∧ l.2 < 9.
Proof.
  unfold lines. rewrite !elem_of_cons, elem_of_nil.
  intros H. repeat (destruct H as [->|H]; [simpl; lia|]). done.
Qed.

Lemma scan_first_nine sqs1 sqs2 ls :
  (∀ j, j < 9 → get sqs1 j = get sqs2 j) →
  (∀ l, l ∈ ls → l ∈ lines) →
  scan sqs1 ls = scan sqs2 ls.
Proof.
  intros Hsame. induction ls as [|[[a b] c] rest IH]; intros Hls; [done|].
  destruct (lines_below_nine (a, b, c)) as (Ha & Hb & Hc); [apply Hls; by left|].
  simpl in Ha, Hb, Hc. cbn [scan line_test].
  rewrite !(Hsame a), !(Hsame b), !(Hsame c) by done.
  rewrite IH; [done|]. intros l Hl. apply Hls. by right.
Qed.

Lemma calculateWinner_first_nine sqs1 sqs2 :
  (∀ j, j < 9 → get sqs1 j = get sqs2 j) →
  calculateWinner sqs1 = calculateWinner sqs2.
Proof. intros Hsame. by apply scan_first_nine. Qed.

(** X15: calculateWinner reads the first nine cells only: two arrays that
    agree there have the same winner; cutting an array after nine cells, or
    writing any value at an index of 9 or more, changes nothing. *)
Theorem calculateWinner_reads_nine (sqs1 sqs2 : list value) :
  (∀ j, j < 9 → get sqs1 j = get sqs2 j) →
  calculateWinner sqs1 = calculateWinner sqs2
  ∧ calculateWinner (take 9 sqs1) = calculateWinner sqs1
  ∧ (∀ i v, 9 ≤ i → calculateWinner (set sqs1 i v) = calculateWinner sqs1).
Proof.
  intros Hsame. split; [by apply calculateWinner_first_nine|]. split.
  - apply calculateWinner_first_nine. intros j Hj. by apply get_take.
  - intros i v Hi. apply calculateWinner_first_nine.
    intros j Hj. apply get_set_ne. lia.
Qed.

Lemma calculateWinner_reads_nine_witness :
  calculateWinner (replicate 3 (JStr "o") ++ replicate 6 JNull ++ [JStr "x"])
  = calculateWinner (replicate 3 (JStr "o") ++ replicate 6 JNull)
  ∧ calculateWinner (take 9 (replicate 3 (JStr "o") ++ replicate 6 JNull ++ [JStr "x"]))
    = calculateWinner (replicate 3 (JStr "o") ++ replicate 6 JNull ++ [JStr "x"])
  ∧ (∀ i v, 9 ≤ i →
       calculateWinner (set (replicate 3 (JStr "o") ++ replicate 6 JNull ++ [JStr "x"]) i v)
       = calculateWinner (replicate 3 (JStr "o") ++ replicate 6 JNull ++ [JStr "x"])).
Proof.
  apply (calculateWinner_reads_nine
           (replicate 3 (JStr "o") ++ replicate 6 JNull ++ [JStr "x"])
           (replicate 3 (JStr "o") ++ replicate 6 JNull)).
  intros j Hj. do 9 (destruct j as [|j]; [reflexivity|]). lia.
Defined.

(** ** Games that do not end *)

(** Clicks at the indices [k], [k + 1], ... on a board of [k] cells whose
    first nine are empty are all accepted. *)
Lemma clicks_past_end N : ∀ s e k,
  history s !! stepNumber s = Some e →
  stepNumber s + 1 = length (history s) →
  length (squares e) = k →
  (∀ j, j < 9 → get (squares e) j = JNull) →
  reachable s →
  ∃ s', clicks s (seq k N) = Returns s'
        ∧ reachable s'
        ∧ stepNumber s' = stepNumber s + N
        ∧ length (history s') = length (history s) + N.
Proof.
  induction N as [|N IH]; intros s e k He Hend Hlen Hnull Hreach.
  - exists s. simpl. split_and!; [done..|lia|lia].
  - assert (Hc : handleClick s k = Returns (after_click s e k)).
    { apply handleClick_placed; [done| |].
      - by rewrite get_out_of_range by lia.
      - rewrite (calculateWinner_first_nine (squares e) empty_board); [done|].
        intros j Hj. rewrite (Hnull j Hj).
        do 9 (destruct j as [|j]; [done|]). lia. }
    destruct (IH (after_click s e k)
                {| squares := set (squares e) k (mark (xIsNext s));
                   clickIndex := Some k |} (S k))
      as (s' & Hrun & Hreach' & Hstep & Hhist).
    + simpl. rewrite lookup_app_r by (rewrite length_take_le; lia).
      rewrite length_take_le by lia.
      by replace (stepNumber s + 1 - (stepNumber s + 1)) with 0 by lia.
    + rewrite length_after_click by lia. simpl. lia.
    + simpl. rewrite length_set. lia.
    + intros j Hj. simpl.
      destruct (decide (j = k)) as [->|Hjk].
      * specialize (Hnull k Hj). rewrite get_out_of_range in Hnull by lia. done.
      * rewrite get_set_ne by done. by apply Hnull.
    + by apply (reachable_click s k).
    + exists s'. cbn [seq clicks]. rewrite Hc.
      split; [done|]. split; [done|].
      rewrite length_after_click in Hhist by lia. simpl in Hstep. lia.
Qed.

(** X16: with indices past the board the game has no end: for every N, the
    N clicks at the indices 9, 10, ..., 9 + N - 1 from the initial state are
    all accepted, and leave a state of the game with N + 1 history entries
    at step N. *)
Theorem history_unbounded (N : nat) :
  ∃ s, clicks initial_state (seq 9 N) = Returns s
       ∧ reachable s
       ∧ stepNumber s = N
       ∧ length (history s) = N + 1.
Proof.
  destruct (clicks_past_end N initial_state initial_snapshot 9)
    as (s & Hrun & Hreach & Hstep & Hlen); try done.
  - intros j Hj. do 9 (destruct j as [|j]; [done|]). lia.
  - constructor.
  - exists s. simpl in Hstep, Hlen. split_and!; [done..|lia].
Qed.

(** The new entry is the one on display after a click that placed a
    symbol. *)
Lemma after_click_current s e i :
  stepNumber s < length (history s) →
  history (after_click s e i) !! stepNumber (after_click s e i)
  = Some {| squares := set (squares e) i (mark (xIsNext s)); clickIndex := Some i |}.
Proof.
  intros Hlt. simpl. rewrite lookup_app_r by (rewrite length_take_le; lia).
  rewrite length_take_le by lia.
  by replace (stepNumber s + 1 - (stepNumber s + 1)) with 0 by lia.
Qed.

(** X17: a click at an index of 9 or more that is accepted is a move the
    page does not show: the click changes the state and adds a move button,
    every square of the board shows what it showed before, and the status
    line passes the turn to the other player. *)
Theorem click_past_board_unseen (s : state) (e : snapshot) (i : nat) :
  history s !! stepNumber s = Some e →
  9 ≤ i →
  truthy (get (squares e) i) = false →
  calculateWinner (squares e) = JNull →
  ∃ s' v v',
    handleClick s i = Returns s' ∧ s' ≠ s
    ∧ render s = Returns v ∧ render s' = Returns v'
    ∧ (∀ r c, r < 3 → c < 3 →
         ∃ rw rw' key sq sq',
           view_board v !! r = Some rw ∧ row_squares rw !! c = Some (key, sq)
           ∧ view_board v' !! r = Some rw' ∧ row_squares rw' !! c = Some (key, sq')
           ∧ square_value sq' = square_value sq
           ∧ square_class sq' = square_class sq)
    ∧ status_text (view_status v)
      = "Next player is: " +:+ (if xIsNext s then "x" else "o")
    ∧ status_text (view_status v')
      = "Next player is: " +:+ (if xIsNext s then "o" else "x")
    ∧ length (view_moves v') = stepNumber s + 2.
Proof.
  intros He Hi Hempty Hw. pose proof (lookup_lt_Some _ _ _ He) as Hlt.
  exists (after_click s e i).
  unfold render. rewrite (after_click_current s e i Hlt), He. cbn zeta.
  eexists _, _. split; [by apply handleClick_placed|].
  split; [apply after_click_ne|]. split; [done|]. split; [done|].
  cbn [view_board view_status view_moves squares].
  assert (Hw' : calculateWinner (set (squares e) i (mark (xIsNext s))) = JNull).
  { rewrite <- Hw. apply calculateWinner_first_nine.
    intros j Hj. apply get_set_ne. lia. }
  split; [|split; [|split]].
  - intros r c Hr Hc.
    destruct (proj2 (Board_squares_iff [0; 1; 2; 3; 4; 5; 6; 7; 8] (squares e)
                       (handleClick s) r c (pretty (r * 3 + c))
                       (Square (get (squares e) (r * 3 + c))
                               (λ _, handleClick s (r * 3 + c)))))
      as (rw & Hrw & Hsq).
    { split; [done|]. split; [done|]. exists (r * 3 + c).
      by rewrite cells_lookup by lia. }
    destruct (proj2 (Board_squares_iff [0; 1; 2; 3; 4; 5; 6; 7; 8]
                       (set (squares e) i (mark (xIsNext s)))
                       (handleClick (after_click s e i)) r c (pretty (r * 3 + c))
                       (Square (get (set (squares e) i (mark (xIsNext s))) (r * 3 + c))
                               (λ _, handleClick (after_click s e i) (r * 3 + c)))))
      as (rw' & Hrw' & Hsq').
    { split; [done|]. split; [done|]. exists (r * 3 + c).
      by rewrite cells_lookup by lia. }
    eexists rw, rw', _, _, _. split; [exact Hrw|]. split; [exact Hsq|].
    split; [exact Hrw'|]. split; [exact Hsq'|].
    cbn [Square square_value square_class].
    rewrite get_set_ne by lia. done.
  - unfold Status. by rewrite Hw.
  - unfold Status. rewrite Hw'. cbn [status_text after_click xIsNext].
    by destruct (xIsNext s).
  - unfold Moves. rewrite length_imap. cbn [after_click history].
    rewrite length_app, length_take_le by lia. simpl. lia.
Qed.

Lemma click_past_board_unseen_witness :
  ∃ s' v v',
    handleClick initial_state 9 = Returns s' ∧ s' ≠ initial_state
    ∧ render initial_state = Returns v ∧ render s' = Returns v'
    ∧ (∀ r c, r < 3 → c < 3 →
         ∃ rw rw' key sq sq',
           view_board v !! r = Some rw ∧ row_squares rw !! c = Some (key, sq)
           ∧ view_board v' !! r = Some rw' ∧ row_squares rw' !! c = Some (key, sq')
           ∧ square_value sq' = square_value sq
           ∧ square_class sq' = square_class sq)
    ∧ status_text (view_status v)
      = "Next player is: " +:+ (if xIsNext initial_state then "x" else "o")
    ∧ status_text (view_status v')
      = "Next player is: " +:+ (if xIsNext initial_state then "o" else "x")
    ∧ length (view_moves v') = stepNumber initial_state + 2.
Proof.
  apply (click_past_board_unseen initial_state initial_snapshot 9);
    [reflexivity|lia|reflexivity|reflexivity].
Defined.

(** ** The cells of the moves *)

(** A cell that is non-empty in an entry keeps its content in every later
    entry. *)
Lemma cell_persists s n m e e' j :
  invariant s → n ≤ m →
  history s !! n = Some e → history s !! m = Some e' →
  truthy (get (squares e) j) = true →
  get (squares e') j = get (squares e) j.
Proof.
  intros Hinv Hnm He. revert e'. induction Hnm as [|m Hnm IH]; intros e' He' Hj.
  - congruence.
  - assert (is_Some (history s !! m)) as [e1 He1].
    { apply lookup_lt_is_Some_2. apply lookup_lt_Some in He'. lia. }
    specialize (IH e1 He1 Hj).
    destruct (inv_chain s Hinv m e1 e' He1 He') as (i & Hempty & -> & _).
    rewrite get_set_ne; [done|]. intros ->. by rewrite IH, Hj in Hempty.
Qed.

(** ** Clicks at array indices *)

Lemma nine_le_max_array_length : 9 ≤ max_array_length.
Proof.
  unfold max_array_length.
  pose proof (Nat.pow_le_mono_r 2 4 32 (ltac:(lia)) (ltac:(lia))) as H.
  change (2 ^ 4) with 16 in H. lia.
Qed.

#[global] Opaque max_array_length.

Lemma slice_copy_short sqs :
  length sqs ≤ max_array_length → slice_copy sqs = sqs.
Proof. intros H. unfold slice_copy. by rewrite take_ge. Qed.



(** On boards that fit into an array the two handlers agree. *)
Lemma exact_handleClick_short s i :
  short_boards s → Exact.handleClick s i = handleClick s i.
Proof.
  intros Hshort. unfold Exact.handleClick, handleClick.
  destruct (take (stepNumber s + 1) (history s)
              !! (length (take (stepNumber s + 1) (history s)) - 1))
    as [e|] eqn:He; [|done].
  apply lookup_take_Some in He as [He _].
  by rewrite (slice_copy_short _ (Hshort _ e He)).
Qed.

Lemma short_boards_handleClick s i s' :
  short_boards s → i < max_array_length →
  handleClick s i = Returns s' → short_boards s'.
Proof.
  unfold handleClick. intros Hshort Hi Hc.
  destruct (take (stepNumber s + 1) (history s)
              !! (length (take (stepNumber s + 1) (history s)) - 1))
    as [e|] eqn:He; [|done].
  apply lookup_take_Some in He as [He _]. cbn zeta in Hc.
  destruct (truthy (get (squares e) i) || truthy (calculateWinner (squares e))).
  - by injection Hc as <-.
  - injection Hc as <-. intros n e' He'. cbn [history] in He'.
    apply lookup_app_Some in He' as [He'|[_ He']].
    + apply lookup_take_Some in He' as [He' _]. by apply (Hshort n).
    + apply list_lookup_singleton_Some in He' as [_ <-]. cbn [squares].
      rewrite length_set. pose proof (Hshort _ e He). lia.
Qed.

Lemma short_boards_initial : short_boards initial_state.
Proof.
  intros n e He. destruct n; [|done]. injection He as <-.
  apply nine_le_max_array_length.
Qed.

Lemma indexed_reachable_short s :
  Exact.indexed s → reachable s ∧ short_boards s.
Proof.
  induction 1 as [|s i s' _ [IHr IHs] Hi Hc|s step _ [IHr IHs] Hlt].
  - split; [constructor|apply short_boards_initial].
  - rewrite (exact_handleClick_short s i IHs) in Hc. split.
    + by apply (reachable_click s i).
    + by apply (short_boards_handleClick s i).
  - split; [by apply reachable_jump|done].
Qed.

Lemma exact_clicks_short ks : ∀ s,
  short_boards s → Forall (λ i, i < max_array_length) ks →
  Exact.clicks s ks = clicks s ks
  ∧ Exact.successes s ks = successes s ks
  ∧ ∀ s', clicks s ks = Returns s' → short_boards s'.
Proof.
  induction ks as [|i rest IH]; intros s Hshort Hks.
  - split; [done|]. split; [done|]. by intros s' [= <-].
  - apply Forall_cons in Hks as [Hi Hrest].
    cbn [Exact.clicks Exact.successes clicks successes].
    rewrite (exact_handleClick_short s i Hshort).
    destruct (handleClick s i) as [s1|] eqn:Hc; [|done].
    destruct (IH s1) as (H1 & H2 & H3); [by apply (short_boards_handleClick s i)|done|].
    rewrite H1, H2. done.
Qed.

Lemma exact_clicks_indexed ks : ∀ s s',
  Exact.indexed s → Forall (λ i, i < max_array_length) ks →
  Exact.clicks s ks = Returns s' → Exact.indexed s'.
Proof.
  induction ks as [|i rest IH]; intros s s' Hind Hks Hrun.
  - by injection Hrun as <-.
  - apply Forall_cons in Hks as [Hi Hrest]. cbn [Exact.clicks] in Hrun.
    destruct (Exact.handleClick s i) as [s1|] eqn:Hc; [|done].
    apply (IH s1); [|done..]. by apply (Exact.indexed_click s i).
Qed.

(** The games of this file that stay on the board are reached by clicks at
    array indices. *)
Lemma play_indexed ks :
  Forall (λ i, i < max_array_length) ks → Exact.indexed (play ks).
Proof.
  intros Hks. unfold play.
  destruct (exact_clicks_short ks initial_state short_boards_initial Hks)
    as (Heq & _ & _).
  destruct (clicks initial_state ks) as [s|] eqn:Hrun; [|constructor].
  apply (exact_clicks_indexed ks initial_state); [constructor|done|done].
Qed.

Lemma four_moves_indexed : Exact.indexed four_moves.
Proof.
  apply play_indexed. pose proof nine_le_max_array_length.
  repeat (constructor; [lia|]). constructor.
Qed.



#[global] Opaque slice_copy.





(** X18: in every state reached by clicks at array indices (below 2^32 - 1)
    and by jumps to a step inside the history, each entry but the first
    records the cell of its move, and on its board that cell holds the
    symbol of the player who moved, x for the odd entries and o for the
    even ones; a non-empty cell keeps its content in all later entries; and
    no two entries of a history record the same cell. *)
Theorem moves_on_distinct_cells (s : state) :
  Exact.indexed s →
  (∀ n e, history s !! S n = Some e →
     ∃ i, clickIndex e = Some i
          ∧ get (squares e) i = (if Nat.even n then JStr "x" else JStr "o"))
  ∧ (∀ n m e e' j, n ≤ m → history s !! n = Some e → history s !! m = Some e' →
       truthy (get (squares e) j) = true →
       get (squares e') j = get (squares e) j)
  ∧ (∀ n m e e' i, n < m → history s !! n = Some e → history s !! m = Some e' →
       clickIndex e = Some i → clickIndex e' ≠ Some i).
Proof.
  intros Hind. destruct (indexed_reachable_short s Hind) as [Hreach _].
  pose proof (reachable_invariant s Hreach) as Hinv.
  assert (Hmove : ∀ n e, history s !! S n = Some e →
     ∃ i, clickIndex e = Some i ∧ get (squares e) i = mark (Nat.even n)).
  { intros n e He.
    assert (is_Some (history s !! n)) as [e0 He0].
    { apply lookup_lt_is_Some_2. apply lookup_lt_Some in He. lia. }
    destruct (inv_chain s Hinv n e0 e He0 He) as (i & _ & -> & Hi).
    exists i. split; [done|]. apply get_set_eq. }
  split; [|split].
  - intros n e He. destruct (Hmove n e He) as (i & Hi & Hg).
    exists i. split; [done|]. rewrite Hg. by destruct (Nat.even n).
  - intros n m e e' j Hnm He He' Hj. by apply (cell_persists s n m).
  - intros n m e e' i Hnm He He' Hi Hi'.
    destruct n as [|n].
    { rewrite (inv_first s Hinv) in He. injection He as <-. done. }
    destruct m as [|m]; [lia|].
    destruct (Hmove n e He) as (i0 & Hi0 & Hg).
    assert (i0 = i) as -> by congruence.
    assert (is_Some (history s !! m)) as [e1 He1].
    { apply lookup_lt_is_Some_2. apply lookup_lt_Some in He'. lia. }
    destruct (inv_chain s Hinv m e1 e' He1 He') as (i1 & Hempty & _ & Hi1).
    assert (i1 = i) as -> by congruence.
    assert (Htruthy : truthy (get (squares e) i) = true)
      by (rewrite Hg; apply mark_truthy).
    rewrite (cell_persists s (S n) m e e1 i Hinv) in Hempty; [|lia|done..].
    by rewrite Htruthy in Hempty.
Qed.

Lemma moves_on_distinct_cells_witness :
  (∀ n e, history four_moves !! S n = Some e →
     ∃ i, clickIndex e = Some i
          ∧ get (squares e) i = (if Nat.even n then JStr "x" else JStr "o"))
  ∧ (∀ n m e e' j, n ≤ m → history four_moves !! n = Some e →
       history four_moves !! m = Some e' →
       truthy (get (squares e) j) = true →
       get (squares e') j = get (squares e) j)
  ∧ (∀ n m e e' i, n < m → history four_moves !! n = Some e →
       history four_moves !! m = Some e' →
       clickIndex e = Some i → clickIndex e' ≠ Some i).
Proof. apply (moves_on_distinct_cells four_moves). apply four_moves_indexed. Defined.
